(** * Range-expression synthesis of the pgsql compiler (dbobj.py)

    A shallow embedding of [edb/server/pgsql/compiler/dbobj.py]: the
    functions that turn schema object types and links into relational
    range variables, and the column resolver.

    The schema catalog, the alias generator, the [pgast] node classes and
    [pathctx] are collaborators of the module and are not part of it:
    - schema objects are handles, all their data is read through the
      schema ([Schema] below is the record of the accessors that are
      called);
    - the alias generator is a section variable;
    - a [pgast] node is a record of the fields the module passes to its
      constructor, assigns or reads.  A scalar field that the module does
      not pass is [None]: the node then carries whatever default the
      class declares, which this module does not determine.  List fields
      that are appended to right after construction start empty. *)

From stdpp Require Import base option strings list gmap pretty.

Set Default Proof Using "Type".
Set Warnings "-register-all".
Open Scope string_scope.
Open Scope list_scope.

(** ** Python exceptions *)

(** The exceptions that the code of this module can raise by itself:
    indexing a list out of range, reading an attribute that a node does
    not have, a failed [assert], and runaway recursion. *)
Inductive exception :=
| IndexError
| AttributeError
| AssertionError
| RecursionError.

(** The class name of an exception, as Python reports it. *)
Definition exception_name (e : exception) : string :=
  match e with
  | IndexError => "IndexError"
  | AttributeError => "AttributeError"
  | AssertionError => "AssertionError"
  | RecursionError => "RecursionError"
  end.

Inductive Result (A : Type) :=
| Ok (a : A)
| Raise (e : exception).
Arguments Ok {A} a.
Arguments Raise {A} e.

Definition result_bind {A B} (m : Result A) (k : A → Result B) : Result B :=
  match m with
  | Ok a => k a
  | Raise e => Raise e
  end.

#[global] Instance Result_ret : MRet Result := λ A a, Ok a.
#[global] Instance Result_bind : MBind Result := λ A B k m, result_bind m k.

(** ** Schema handles and names *)

(** [sn.Name]: a module-qualified name. *)
Record Name := mkName { Name_module : string; Name_name : string }.

#[global] Instance Name_eq_dec : EqDecision Name.
Proof. solve_decision. Defined.

#[global] Instance Name_countable : Countable Name :=
  inj_countable' (λ n, (Name_module n, Name_name n))
                 (λ p, mkName p.1 p.2)
                 (λ n, match n with mkName _ _ => eq_refl end).

(** Object types and links are handles; they are hashed and compared by
    identity. *)
Record ObjectType := mkObjectType { ObjectType_id : string }.
Record Link := mkLink { Link_id : string }.

#[global] Instance ObjectType_eq_dec : EqDecision ObjectType.
Proof. solve_decision. Defined.
#[global] Instance ObjectType_countable : Countable ObjectType :=
  inj_countable' ObjectType_id mkObjectType
                 (λ o, match o with mkObjectType _ => eq_refl end).

#[global] Instance Link_eq_dec : EqDecision Link.
Proof. solve_decision. Defined.
#[global] Instance Link_countable : Countable Link :=
  inj_countable' Link_id mkLink
                 (λ l, match l with mkLink _ => eq_refl end).

(** [s_obj.Object]: what [range_from_queryset] and [get_backend_name]
    accept. *)
Inductive Object :=
| ObjectType_obj (o : ObjectType)
| Link_obj (l : Link).

Inductive PointerDirection := Outbound | Inbound.

(** The schema accessors that the module calls.  [getptr] raises
    [KeyError] when the source has no such pointer; the only caller
    catches it, so it is an [option] here. *)
Record Schema := mkSchema {
  objtype_material_type : ObjectType → ObjectType;
  objtype_get_name : ObjectType → Name;
  objtype_get_is_virtual : ObjectType → bool;
  objtype_children : ObjectType → list ObjectType;
  objtype_descendants : ObjectType → list ObjectType;
  objtype_getptr : ObjectType → Name → option Link;
  link_material_type : Link → Link;
  link_get_source : Link → ObjectType;
  get_shortname : Object → Name;
  (* common.get_backend_name(schema, obj, catenate=False) *)
  get_backend_name : Object → string * string;
  (* pgtypes.get_pointer_storage_info(ptrcls, resolve_type=False,
       link_bias=True, schema=schema).column_name *)
  get_pointer_storage_column_name : Link → string;
}.

(** [irast.PathId] is an opaque key for this module. *)
Definition PathId := string.

(** ** pgast nodes *)

Record Alias := mkAlias {
  aliasname : string;
  colnames : list string;
}.

Record ColumnRef := mkColumnRef {
  ColumnRef_name : list string;
  ColumnRef_nullable : option bool;
  ColumnRef_optional : option bool;
}.

(** Output variables.  The [name] of a tuple element is itself the output
    variable that addresses the element (or a plain string); its [val] is
    the resolved reference, filled in by [get_rvar_var]. *)
Inductive OutputVar :=
| ColumnRef_var (c : ColumnRef)
| TupleVar (elements : list TupleElement) (named : bool)
with TupleElement :=
| mkTupleElement (path_id : PathId) (name : string + OutputVar)
                 (val : option OutputVar).

Definition TupleElement_path_id (el : TupleElement) : PathId :=
  match el with mkTupleElement p _ _ => p end.
Definition TupleElement_name (el : TupleElement) : string + OutputVar :=
  match el with mkTupleElement _ n _ => n end.

Record ResTarget := mkResTarget {
  ResTarget_name : option string;
  ResTarget_val : ColumnRef;
}.

Record Relation_node := mkRelation {
  Relation_schemaname : option string;
  Relation_name : string;
  Relation_path_id : option PathId;
  Relation_is_distinct : option bool;
}.

Record SelectStmt_node (Rel RVar : Type) := mkSelectStmt {
  name : option string;
  all : option bool;
  op : option string;
  larg : option Rel;
  rarg : option Rel;
  from_clause : list RVar;
  target_list : list ResTarget;
  rptr_rvar : option RVar;
  path_rvar_map : list ((PathId * string) * RVar);
  path_scope : gset PathId;
  path_id : option PathId;
  is_distinct : option bool;
}.
Arguments mkSelectStmt {Rel RVar}.
Arguments name {Rel RVar}.
Arguments all {Rel RVar}.
Arguments op {Rel RVar}.
Arguments larg {Rel RVar}.
Arguments rarg {Rel RVar}.
Arguments from_clause {Rel RVar}.
Arguments target_list {Rel RVar}.
Arguments rptr_rvar {Rel RVar}.
Arguments path_rvar_map {Rel RVar}.
Arguments path_scope {Rel RVar}.
Arguments path_id {Rel RVar}.
Arguments is_distinct {Rel RVar}.

Record CommonTableExpr_node (Rel : Type) := mkCommonTableExpr {
  cte_name : option string;
  cte_query : Rel;
  cte_alias : option Alias;
}.
Arguments mkCommonTableExpr {Rel}.
Arguments cte_name {Rel}.
Arguments cte_query {Rel}.
Arguments cte_alias {Rel}.

Inductive BaseRelation :=
| Relation (r : Relation_node)
| SelectStmt (s : SelectStmt_node BaseRelation BaseRangeVar)
with BaseRangeVar :=
| RangeVar (relation : BaseRelation + CommonTableExpr_node BaseRelation)
           (alias : Alias)
| RangeSubselect (subquery : BaseRelation) (alias : Alias)
                 (lateral : option bool).

Abbreviation Query := (SelectStmt_node BaseRelation BaseRangeVar).
Abbreviation CommonTableExpr := (CommonTableExpr_node BaseRelation).

Definition BaseRangeVar_alias (rvar : BaseRangeVar) : Alias :=
  match rvar with
  | RangeVar _ a => a
  | RangeSubselect _ a _ => a
  end.

(** ** Column resolver *)

(** [get_column(rvar, colspec, *, optional=False, nullable=None)].
    [colspec.name[-1]] is the last component of the reference's name and
    raises [IndexError] when the name is empty. *)
Definition get_column (rvar : option BaseRangeVar)
    (colspec : string + ColumnRef)
    (optional : bool) (nullable : option bool) : Result ColumnRef :=
  '(colname, nullable, optional) ←
    match colspec with
    | inr colspec =>
        match last (ColumnRef_name colspec) with
        | Some colname =>
            let nullable :=
              match nullable with
              | None => ColumnRef_nullable colspec
              | Some b => Some b
              end in
            let optional := ColumnRef_optional colspec in
            Ok (colname, nullable, optional)
        | None => Raise IndexError
        end
    | inl colspec =>
        let colname := colspec in
        let nullable :=
          match nullable with
          | None => Some true
          | Some b => Some b
          end in
        Ok (colname, nullable, Some optional)
    end;
  let name :=
    match rvar with
    | None => [colname]
    | Some rvar => [aliasname (BaseRangeVar_alias rvar); colname]
    end in
  Ok (mkColumnRef name nullable optional).

(** [get_rvar_var] once its [assert isinstance(var, pgast.OutputVar)] has
    passed.  The recursive call on an element goes through the same
    assertion, which is written out in the loop: an element whose name is
    not an output variable fails it.  The recursive call passes neither
    [optional] nor [nullable]. *)
Fixpoint get_rvar_var_checked (rvar : option BaseRangeVar) (var : OutputVar)
    (optional : bool) (nullable : option bool) {struct var}
    : Result OutputVar :=
  match var with
  | TupleVar elements named =>
      elements ←
        (fix loop (els : list TupleElement) : Result (list TupleElement) :=
           match els with
           | [] => Ok []
           | el :: els =>
               val ←
                 match TupleElement_name el with
                 | inr v => get_rvar_var_checked rvar v false None
                 | inl _ => Raise AssertionError
                 end;
               rest ← loop els;
               Ok (mkTupleElement (TupleElement_path_id el)
                                  (TupleElement_name el) (Some val) :: rest)
           end) elements;
      Ok (TupleVar elements named)
  | ColumnRef_var c =>
      fieldref ← get_column rvar (inr c) optional nullable;
      Ok (ColumnRef_var fieldref)
  end.

(** [get_rvar_var(rvar, var, *, optional=False, nullable=None)]. *)
Definition get_rvar_var (rvar : option BaseRangeVar)
    (var : string + OutputVar)
    (optional : bool) (nullable : option bool) : Result OutputVar :=
  match var with
  | inr var => get_rvar_var_checked rvar var optional nullable
  | inl _ => Raise AssertionError
  end.

(** ** Compilation environment *)

(** An entry of the overlay registry is [(op, rel)]; [rel] is what goes
    into the [relation] of a [RangeVar]: a relation or a CTE. *)
Definition OverlayRel : Type := BaseRelation + CommonTableExpr.

Definition OverlayRel_name (rel : OverlayRel) : option string :=
  match rel with
  | inl (Relation r) => Some (Relation_name r)
  | inl (SelectStmt s) => name s
  | inr cte => cte_name cte
  end.

Section Compiler.

(** [env.aliases]: the alias generator.  [aliases_get hint] is
    [env.aliases.get(hint)]: it returns an alias and advances the
    generator. *)
Context {AliasGenerator : Type}.
Variable aliases_get :
  option string → AliasGenerator → string * AliasGenerator.

(** [context.Environment]: the fields that the module reads.
    [rel_overlays] is a dictionary of lists, keyed by name. *)
Record Environment := mkEnvironment {
  schema : Schema;
  rel_overlays : gmap Name (list (string * OverlayRel));
  aliases : AliasGenerator;
}.

(** Computations that read and update the environment and may raise. *)
Definition M (A : Type) : Type := Environment → Result (A * Environment).

Definition M_ret {A} (a : A) : M A := λ env, Ok (a, env).
Definition M_bind {A B} (m : M A) (k : A → M B) : M B :=
  λ env,
    match m env with
    | Ok (a, env') => k a env'
    | Raise e => Raise e
    end.
Definition M_raise {A} (e : exception) : M A := λ _, Raise e.
Definition get_env : M Environment := λ env, Ok (env, env).

Notation "x <- m ;; k" := (M_bind m (λ x, k))
  (at level 100, m at next level, right associativity,
   format "'[v' x  <-  m  ;;  '/' k ']'").

(** [for x in xs: acc = body(acc, x)], in the environment. *)
Fixpoint for_each {A B} (body : B → A → M B) (xs : list A) (acc : B)
    : M B :=
  match xs with
  | [] => M_ret acc
  | x :: xs => acc <- body acc x ;; for_each body xs acc
  end.

(** [env.aliases.get(hint)] as a computation. *)
Definition after_alias (env : Environment) (hint : option string)
    : Environment :=
  mkEnvironment (schema env) (rel_overlays env)
    (aliases_get hint (aliases env)).2.

Definition env_aliases_get (hint : option string) : M string :=
  λ env, Ok ((aliases_get hint (aliases env)).1, after_alias env hint).

(** Two states of one compilation unit: the schema and the overlay
    registry are the same, only the alias generator may have advanced. *)
Definition same_unit (env env' : Environment) : Prop :=
  schema env' = schema env ∧ rel_overlays env' = rel_overlays env.

(** ** Nodes as the module constructs them *)

(** [pgast.SelectStmt()]. *)
Definition new_SelectStmt : Query :=
  {| name := None; all := None; op := None; larg := None; rarg := None;
     from_clause := []; target_list := []; rptr_rvar := None;
     path_rvar_map := []; path_scope := ∅; path_id := None;
     is_distinct := None |}.

Definition set_from_clause (q : Query) (v : list BaseRangeVar) : Query :=
  mkSelectStmt (name q) (all q) (op q) (larg q) (rarg q) v
    (target_list q) (rptr_rvar q) (path_rvar_map q) (path_scope q)
    (path_id q) (is_distinct q).
Definition set_target_list (q : Query) (v : list ResTarget) : Query :=
  mkSelectStmt (name q) (all q) (op q) (larg q) (rarg q) (from_clause q)
    v (rptr_rvar q) (path_rvar_map q) (path_scope q)
    (path_id q) (is_distinct q).
Definition set_rptr_rvar (q : Query) (v : option BaseRangeVar) : Query :=
  mkSelectStmt (name q) (all q) (op q) (larg q) (rarg q) (from_clause q)
    (target_list q) v (path_rvar_map q) (path_scope q)
    (path_id q) (is_distinct q).
Definition set_op_rarg (q : Query) (o : string) (r : BaseRelation) : Query :=
  mkSelectStmt (name q) (all q) (Some o) (larg q) (Some r) (from_clause q)
    (target_list q) (rptr_rvar q) (path_rvar_map q) (path_scope q)
    (path_id q) (is_distinct q).
Definition set_path_info (q : Query) (d : option bool) (p : option PathId)
    : Query :=
  mkSelectStmt (name q) (all q) (op q) (larg q) (rarg q) (from_clause q)
    (target_list q) (rptr_rvar q) (path_rvar_map q) (path_scope q) p d.

(** [pgast.SelectStmt(all=True, larg=larg)]. *)
Definition new_SelectStmt_all_larg (l : BaseRelation) : Query :=
  {| name := None; all := Some true; op := None; larg := Some l;
     rarg := None; from_clause := []; target_list := [];
     rptr_rvar := None; path_rvar_map := []; path_scope := ∅;
     path_id := None; is_distinct := None |}.

(** Modelled from the spec: [pathctx.put_path_value_rvar] and
    [pathctx.put_path_bond] are not in this module.  The spec has a branch
    tagged "with the path identifier and a uniqueness-bond marker": the
    first records the range variable that provides the value of the path
    in the statement, the second adds the path to the statement's bonds.
    Neither touches the other fields of the statement. *)
Definition put_path_value_rvar (stmt : Query) (pid : PathId)
    (rvar : BaseRangeVar) : Query :=
  mkSelectStmt (name stmt) (all stmt) (op stmt) (larg stmt) (rarg stmt)
    (from_clause stmt) (target_list stmt) (rptr_rvar stmt)
    (((pid, "value"), rvar)
       :: filter (λ e, e.1 ≠ (pid, "value")) (path_rvar_map stmt))
    (path_scope stmt) (path_id stmt) (is_distinct stmt).

Definition put_path_bond (stmt : Query) (pid : PathId) : Query :=
  mkSelectStmt (name stmt) (all stmt) (op stmt) (larg stmt) (rarg stmt)
    (from_clause stmt) (target_list stmt) (rptr_rvar stmt)
    (path_rvar_map stmt) ({[pid]} ∪ path_scope stmt)
    (path_id stmt) (is_distinct stmt).

(** ** Set combinator *)

(** [range_from_queryset(set_ops, stype, *, env)].

    With more than one entry the loop keeps in [qry] a statement
    [SelectStmt(all=True, larg=...)] whose operator and right argument are
    still to come; each entry fills them in and wraps the statement in a
    new one; the last wrapper is dropped by [qry = qry.larg].  With one
    entry or none, [set_ops[0][1].from_clause[0]] is returned: the list
    accesses raise [IndexError] out of range, and a relation that is not a
    statement has no [from_clause]. *)
Definition range_from_queryset (set_ops : list (string * BaseRelation))
    (stype : Object) : M BaseRangeVar :=
  if decide (1 < length set_ops) then
    match set_ops with
    | [] => M_raise IndexError
    | (_, first) :: rest =>
        let qry :=
          fold_left
            (λ (qry : Query) '(op, rarg),
               let qry := set_op_rarg qry op rarg in
               new_SelectStmt_all_larg (SelectStmt qry))
            rest (new_SelectStmt_all_larg first) in
        match larg qry with
        | Some qry =>
            env <- get_env ;;
            a <- env_aliases_get
                   (Some (Name_name (get_shortname (schema env) stype))) ;;
            M_ret (RangeSubselect qry (mkAlias a []) None)
        | None => M_raise AttributeError
        end
    end
  else
    match set_ops with
    | [] => M_raise IndexError
    | (_, Relation _) :: _ => M_raise AttributeError
    | (_, SelectStmt s) :: _ =>
        match from_clause s with
        | [] => M_raise IndexError
        | rvar :: _ => M_ret rvar
        end
    end.

(** ** Object-type ranges *)

(** The body of the loop over the overlays in
    [range_for_material_objtype] (lines 78-97). *)
Definition range_for_material_objtype_overlay (pid : PathId)
    (set_ops : list (string * BaseRelation))
    (overlay : string * OverlayRel) : M (list (string * BaseRelation)) :=
  let '(op, cte) := overlay in
  a <- env_aliases_get (OverlayRel_name cte) ;;
  let rvar := RangeVar cte (mkAlias a []) in
  let qry := set_from_clause new_SelectStmt [rvar] in
  let qry := put_path_value_rvar qry pid rvar in
  let qry := put_path_bond qry pid in
  let '(op, set_ops) :=
    if bool_decide (op = "replace") then ("union", [])
    else (op, set_ops) in
  M_ret (set_ops ++ [(op, SelectStmt qry)]).

(** Lines 69-97 of [range_for_material_objtype]: the list of set
    operations built from the type's own range variable and the overlays
    registered for it. *)
Definition range_for_material_objtype_set_ops (rvar : BaseRangeVar)
    (pid : PathId) (overlays : list (string * OverlayRel))
    : M (list (string * BaseRelation)) :=
  let set_ops := [] in
  let qry := new_SelectStmt in
  let qry := set_from_clause qry (from_clause qry ++ [rvar]) in
  let qry := put_path_value_rvar qry pid rvar in
  let qry := put_path_bond qry pid in
  let set_ops := set_ops ++ [("union", SelectStmt qry)] in
  for_each (range_for_material_objtype_overlay pid) overlays set_ops.

(** [range_for_material_objtype(objtype, path_id, *, include_overlays,
    env)]. *)
Definition range_for_material_objtype (objtype : ObjectType)
    (pid : PathId) (include_overlays : bool) : M BaseRangeVar :=
  env <- get_env ;;
  let objtype := objtype_material_type (schema env) objtype in
  let objtype_name := objtype_get_name (schema env) objtype in
  let '(table_schema_name, table_name) :=
    get_backend_name (schema env) (ObjectType_obj objtype) in
  let table_schema_name :=
    if bool_decide (Name_module objtype_name = "schema") then "edgedbss"
    else table_schema_name in
  let relation :=
    Relation (mkRelation (Some table_schema_name) table_name (Some pid)
                         None) in
  a <- env_aliases_get (Some (Name_name objtype_name)) ;;
  let rvar := RangeVar (inl relation) (mkAlias a []) in
  match rel_overlays env !! objtype_name with
  | Some ((_ :: _) as overlays) =>
      if include_overlays then
        set_ops <- range_for_material_objtype_set_ops rvar pid overlays ;;
        range_from_queryset set_ops (ObjectType_obj objtype)
      else M_ret rvar
  | _ => M_ret rvar
  end.

(** Modelled from the spec: the [query] property of a range variable is
    declared in [pgast], not in this module.  The spec's range expression
    is a table reference, a subquery reference or a CTE reference, and a
    range is marked distinct and stamped through the relation it ranges
    over: the relation itself, the query of the CTE, or the subquery. *)
Definition BaseRangeVar_query (rvar : BaseRangeVar) : BaseRelation :=
  match rvar with
  | RangeVar (inl rel) _ => rel
  | RangeVar (inr cte) _ => cte_query cte
  | RangeSubselect q _ _ => q
  end.

Definition BaseRelation_is_distinct (rel : BaseRelation) : option bool :=
  match rel with
  | Relation r => Relation_is_distinct r
  | SelectStmt s => is_distinct s
  end.

Definition BaseRelation_path_id (rel : BaseRelation) : option PathId :=
  match rel with
  | Relation r => Relation_path_id r
  | SelectStmt s => path_id s
  end.

(** [rel.is_distinct = d; rel.path_id = p]. *)
Definition BaseRelation_set_path_info (d : bool) (p : PathId)
    (rel : BaseRelation) : BaseRelation :=
  match rel with
  | Relation r =>
      Relation (mkRelation (Relation_schemaname r) (Relation_name r)
                           (Some p) (Some d))
  | SelectStmt s => SelectStmt (set_path_info s (Some d) (Some p))
  end.

(** Modelled from the spec: assignment through the [query] property (see
    [BaseRangeVar_query]): [rvar.query.is_distinct = d;
    rvar.query.path_id = p].  The node is updated in place; the range
    variable that is returned is the one that was given.  A node that is
    also held by the overlay registry changes there too in the program:
    the registry of the model keeps the value that was registered. *)
Definition BaseRangeVar_set_query_path_info (d : bool) (p : PathId)
    (rvar : BaseRangeVar) : BaseRangeVar :=
  match rvar with
  | RangeVar (inl rel) a =>
      RangeVar (inl (BaseRelation_set_path_info d p rel)) a
  | RangeVar (inr cte) a =>
      RangeVar
        (inr (mkCommonTableExpr (cte_name cte)
                (BaseRelation_set_path_info d p (cte_query cte))
                (cte_alias cte))) a
  | RangeSubselect q a l =>
      RangeSubselect (BaseRelation_set_path_info d p q) a l
  end.

(** [range_for_objtype(objtype, path_id, *, include_overlays, env)].
    The function calls itself on the children of a virtual type; [depth]
    is the number of nested calls that the interpreter still allows, and
    running out of it is Python's [RecursionError].  [frozenset(...)] is
    a finite set, iterated in the order of its [elements]. *)
Fixpoint range_for_objtype (depth : nat) (objtype : ObjectType)
    (pid : PathId) (include_overlays : bool) : M BaseRangeVar :=
  match depth with
  | 0 => M_raise RecursionError
  | S depth =>
      env <- get_env ;;
      rvar <-
        (if negb (objtype_get_is_virtual (schema env) objtype) then
           range_for_material_objtype objtype pid include_overlays
         else
           let children : gset ObjectType :=
             list_to_set (objtype_children (schema env) objtype) in
           set_ops <-
             for_each
               (λ set_ops child,
                  c_rvar <- range_for_objtype depth child pid
                              include_overlays ;;
                  let qry := set_from_clause new_SelectStmt [c_rvar] in
                  let qry := put_path_value_rvar qry pid c_rvar in
                  let qry := put_path_bond qry pid in
                  M_ret (set_ops ++ [("union", SelectStmt qry)]))
               (elements children) [] ;;
           range_from_queryset set_ops (ObjectType_obj objtype)) ;;
      M_ret (BaseRangeVar_set_query_path_info true pid rvar)
  end.

(** ** Pointer ranges *)

(** [table_from_ptrcls(ptrcls, *, env)]. *)
Definition table_from_ptrcls (ptrcls : Link) : M BaseRangeVar :=
  env <- get_env ;;
  let '(table_schema_name, table_name) :=
    get_backend_name (schema env) (Link_obj ptrcls) in
  let pname := get_shortname (schema env) (Link_obj ptrcls) in
  let table_schema_name :=
    if bool_decide (Name_module pname = "schema") then "edgedbss"
    else table_schema_name in
  let relation :=
    Relation (mkRelation (Some table_schema_name) table_name None None) in
  a <- env_aliases_get (Some (Name_name pname)) ;;
  M_ret (RangeVar (inl relation) (mkAlias a [])).

(** The loop over the overlays of a storage-owning link in
    [range_for_ptrcls] (lines 239-258). *)
Definition range_for_ptrcls_overlays (cols : list string)
    (overlays : list (string * OverlayRel))
    (set_ops : list (string * BaseRelation))
    : M (list (string * BaseRelation)) :=
  for_each
    (λ set_ops '(op, cte),
       a <- env_aliases_get (OverlayRel_name cte) ;;
       let rvar := RangeVar cte (mkAlias a []) in
       let qry :=
         set_from_clause
           (set_target_list new_SelectStmt
              (map (λ col, mkResTarget None (mkColumnRef [col] None None))
                   cols))
           [rvar] in
       M_ret (set_ops ++ [(op, SelectStmt qry)]))
    overlays set_ops.

(** The body of the loop over the sources in [range_for_ptrcls]
    (lines 209-258); the state of the loop is [set_ops] and the set
    [ptrclses] of the storage-owning links seen so far. *)
Definition range_for_ptrcls_source (linkname : Name) (cols : list string)
    (include_overlays : bool)
    (state : list (string * BaseRelation) * gset Link)
    (source : ObjectType)
    : M (list (string * BaseRelation) * gset Link) :=
  let '(set_ops, ptrclses) := state in
  env <- get_env ;;
  match objtype_getptr (schema env) source linkname with
  | None => M_ret (set_ops, ptrclses)
  | Some ptr =>
      let src_ptrcls := link_material_type (schema env) ptr in
      if decide (src_ptrcls ∈ ptrclses) then M_ret (set_ops, ptrclses)
      else
        let ptrclses := ptrclses ∪ {[src_ptrcls]} in
        table <- table_from_ptrcls src_ptrcls ;;
        let qry := new_SelectStmt in
        let qry := set_from_clause qry (from_clause qry ++ [table]) in
        let qry := set_rptr_rvar qry (Some table) in
        let qry :=
          fold_left
            (λ (qry : Query) colname,
               let selexpr :=
                 mkColumnRef
                   [aliasname (BaseRangeVar_alias table); colname]
                   None None in
               set_target_list qry
                 (target_list qry ++ [mkResTarget (Some colname) selexpr]))
            cols qry in
        let set_ops := set_ops ++ [("union", SelectStmt qry)] in
        match rel_overlays env
                !! get_shortname (schema env) (Link_obj src_ptrcls) with
        | Some ((_ :: _) as overlays) =>
            if include_overlays then
              set_ops <- range_for_ptrcls_overlays cols overlays set_ops ;;
              M_ret (set_ops, ptrclses)
            else M_ret (set_ops, ptrclses)
        | _ => M_ret (set_ops, ptrclses)
        end
  end.

(** The sources that [range_for_ptrcls] sifts through:
    [{endpoint} | set(endpoint.descendants(env.schema))].  The union of
    Python sets is a finite set, iterated in the order of its
    [elements]. *)
Definition range_for_ptrcls_sources (s : Schema) (ptrcls : Link)
    : list ObjectType :=
  let endpoint := link_get_source s ptrcls in
  elements
    ({[endpoint]} ∪ list_to_set (objtype_descendants s endpoint)
     : gset ObjectType).

(** Lines 192-258 of [range_for_ptrcls]: the list of set operations and
    the set of storage-owning links that were visited. *)
Definition range_for_ptrcls_set_ops (ptrcls : Link)
    (include_overlays : bool)
    : M (list (string * BaseRelation) * gset Link) :=
  env <- get_env ;;
  let linkname := get_shortname (schema env) (Link_obj ptrcls) in
  let tgt_col := get_pointer_storage_column_name (schema env) ptrcls in
  let cols := ["std::source"; tgt_col] in
  for_each (range_for_ptrcls_source linkname cols include_overlays)
    (range_for_ptrcls_sources (schema env) ptrcls) ([], ∅).

(** [range_for_ptrcls(ptrcls, direction, *, include_overlays, env)]. *)
Definition range_for_ptrcls (ptrcls : Link) (direction : PointerDirection)
    (include_overlays : bool) : M BaseRangeVar :=
  r <- range_for_ptrcls_set_ops ptrcls include_overlays ;;
  let '(set_ops, _) := r in
  range_from_queryset set_ops (Link_obj ptrcls).

(** ** Overlay registration *)

(** [add_rel_overlay(stype, op, rel, *, env)]: [env.rel_overlays] creates
    an empty list for a name that is looked up for the first time. *)
Definition add_rel_overlay (stype : ObjectType) (op : string)
    (rel : OverlayRel) : M unit :=
  λ env,
    let key := objtype_get_name (schema env) stype in
    let overlays := default [] (rel_overlays env !! key) in
    Ok ((), mkEnvironment (schema env)
              (<[key := overlays ++ [(op, rel)]]> (rel_overlays env))
              (aliases env)).

End Compiler.

(** ** The set combinator as the specification words it *)

(** One step of the chain: "combine the accumulator and the new relation
    with [op] into a new composed node". *)
Definition set_operation (acc : BaseRelation) (o : string)
    (rel : BaseRelation) : BaseRelation :=
  SelectStmt
    {| name := None; all := Some true; op := Some o; larg := Some acc;
       rarg := Some rel; from_clause := []; target_list := [];
       rptr_rvar := None; path_rvar_map := []; path_scope := ∅;
       path_id := None; is_distinct := None |}.

(** "Start with the first entry's relation as the accumulator; for each
    subsequent [(op, relation)], combine the accumulator and the new
    relation with [op] into a new composed node, and make that the
    accumulator." *)
Fixpoint left_deep_chain (acc : BaseRelation)
    (rest : list (string * BaseRelation)) : BaseRelation :=
  match rest with
  | [] => acc
  | (o, rel) :: rest => left_deep_chain (set_operation acc o rel) rest
  end.

(** ** Vocabulary of the statements *)

(** The branch that the object-type synthesizers build around a range
    variable: a statement selecting from it, with the path's value and
    bond recorded. *)
Definition path_branch (pid : PathId) (rvar : BaseRangeVar) : BaseRelation :=
  SelectStmt
    (put_path_bond
       (put_path_value_rvar (set_from_clause new_SelectStmt [rvar]) pid rvar)
       pid).

(** A branch whose statement has exactly one range variable in its
    [from_clause]. *)
Definition single_source_branch (b : string * BaseRelation) : Prop :=
  ∃ s rvar, b.2 = SelectStmt s ∧ from_clause s = [rvar].

(** The schema lets [range_for_objtype] finish within [depth] nested
    calls: every virtual type that is reached has a child, and the
    children are reached within the remaining depth. *)
Fixpoint objtype_resolvable (s : Schema) (depth : nat) (objtype : ObjectType)
    : bool :=
  match depth with
  | 0 => false
  | S depth =>
      if negb (objtype_get_is_virtual s objtype) then true
      else
        let children : gset ObjectType :=
          list_to_set (objtype_children s objtype) in
        match elements children with
        | [] => false
        | cs => forallb (objtype_resolvable s depth) cs
        end
  end.

(** ** A concrete compilation unit *)

(** Modelled from the spec: the alias generator is not in this module.
    The spec has [allocate(hint) -> identifier], unique within the
    compilation unit, from a monotonic counter: the hint followed by the
    value of the counter. *)
Definition counter_aliases_get (hint : option string) (n : nat)
    : string * nat :=
  (default "v" hint +:+ "~" +:+ pretty n, S n).

(** A schema with a virtual type [V] over the concrete types [A] and [B],
    a virtual type [E] without children, and a type [Root] with the
    descendants [Child1] and [Child2].  The link [owner] is declared on
    [Root] and inherited by its descendants: the three pointers share the
    storage of [Root]'s.  The link [friend] is declared on [A] and
    overloaded on [B], with storage of its own there. *)
Definition ex_type (id : string) : ObjectType := mkObjectType id.
Definition ex_link (id : string) : Link := mkLink id.

Definition ex_link_shortname (l : Link) : string :=
  if bool_decide (Link_id l ∈ ["owner@Root"; "owner@Child1"; "owner@Child2"])
  then "owner"
  else if bool_decide (Link_id l ∈ ["friend@A"; "friend@B"]) then "friend"
  else Link_id l.

Definition ex_schema : Schema :=
  {| objtype_material_type := id;
     objtype_get_name := λ o, mkName "test" (ObjectType_id o);
     objtype_get_is_virtual :=
       λ o, bool_decide (ObjectType_id o ∈ ["V"; "E"]);
     objtype_children :=
       λ o, if bool_decide (ObjectType_id o = "V")
            then [ex_type "A"; ex_type "B"] else [];
     objtype_descendants :=
       λ o, if bool_decide (ObjectType_id o = "Root")
            then [ex_type "Child1"; ex_type "Child2"]
            else if bool_decide (ObjectType_id o = "A") then [ex_type "B"]
            else [];
     objtype_getptr :=
       λ o n,
         if bool_decide (Name_name n = "owner"
                         ∧ ObjectType_id o ∈ ["Root"; "Child1"; "Child2"])
         then Some (ex_link ("owner@" +:+ ObjectType_id o))
         else if bool_decide (Name_name n = "friend"
                              ∧ ObjectType_id o ∈ ["A"; "B"])
         then Some (ex_link ("friend@" +:+ ObjectType_id o))
         else None;
     link_material_type :=
       λ l, if bool_decide (ex_link_shortname l = "owner")
            then ex_link "owner@Root" else l;
     link_get_source :=
       λ l, if bool_decide (ex_link_shortname l = "owner")
            then ex_type "Root" else ex_type "A";
     get_shortname :=
       λ o, match o with
            | ObjectType_obj o => mkName "test" (ObjectType_id o)
            | Link_obj l => mkName "test" (ex_link_shortname l)
            end;
     get_backend_name :=
       λ o, match o with
            | ObjectType_obj o => ("edgedb_test", ObjectType_id o +:+ "_data")
            | Link_obj l => ("edgedb_test", Link_id l +:+ "_link")
            end;
     get_pointer_storage_column_name := λ _, "std::target" |}.

(** A pending delta: a CTE over some statement. *)
Definition ex_cte (n : string) : OverlayRel :=
  inr (mkCommonTableExpr (Some n) (SelectStmt new_SelectStmt) None).

(** No overlays registered. *)
Definition ex_env : @Environment nat := mkEnvironment ex_schema ∅ 0.

(** [union X], [union Y], [replace Z], [union W] registered for the type
    [A], and [union X], [replace Z] for the link [owner]. *)
Definition ex_env_overlays : @Environment nat :=
  mkEnvironment ex_schema
    (<[mkName "test" "A" :=
         [("union", ex_cte "X"); ("union", ex_cte "Y");
          ("replace", ex_cte "Z"); ("union", ex_cte "W")]]>
       (<[mkName "test" "owner" :=
            [("union", ex_cte "X"); ("replace", ex_cte "Z")]]> ∅))
    0.

(** The tables of the storage branches of a pointer range, in the order
    of the branches.  A storage branch is one that [range_for_ptrcls]
    builds for a storage-owning link: it keeps the table in [rptr_rvar];
    the overlay branches do not. *)
Definition storage_tables (set_ops : list (string * BaseRelation))
    : list BaseRelation :=
  omap
    (λ b : string * BaseRelation,
       match b.2 with
       | SelectStmt q =>
           match rptr_rvar q with
           | Some (RangeVar (inl rel) _) => Some rel
           | _ => None
           end
       | Relation _ => None
       end)
    set_ops.

(** The table of a storage-owning link, as [table_from_ptrcls] names
    it. *)
Definition link_table (s : Schema) (ptrcls : Link) : BaseRelation :=
  let pname := get_shortname s (Link_obj ptrcls) in
  Relation
    (mkRelation
       (Some (if bool_decide (Name_module pname = "schema") then "edgedbss"
              else (get_backend_name s (Link_obj ptrcls)).1))
       (get_backend_name s (Link_obj ptrcls)).2 None None).

(** The storage-owning links of the sources that have the link. *)
Definition storage_owners (s : Schema) (linkname : Name)
    (sources : list ObjectType) : gset Link :=
  list_to_set
    (omap (λ source, link_material_type s <$> objtype_getptr s source linkname)
          sources).

(** ** Vocabulary of the column resolver *)

Definition result_mapM {A B} (f : A → Result B) : list A → Result (list B) :=
  fix go xs :=
    match xs with
    | [] => Ok []
    | x :: xs => y ← f x; ys ← go xs; Ok (y :: ys)
    end.

(** Every leaf of an output variable is a column reference with a
    non-empty name, and every element of a tuple is named by an output
    variable: nothing in the resolution of the variable can raise. *)
Fixpoint OutputVar_resolvable (var : OutputVar) : bool :=
  match var with
  | ColumnRef_var c => bool_decide (ColumnRef_name c ≠ [])
  | TupleVar elements _ =>
      forallb
        (λ el, match TupleElement_name el with
               | inr v => OutputVar_resolvable v
               | inl _ => false
               end)
        elements
  end.


(** The name that [get_column] gives the reference to the column
    [colname]: qualified by the alias of the range variable, or bare when
    there is none. *)
Definition column_name (rvar : option BaseRangeVar) (colname : string)
    : list string :=
  match rvar with
  | None => [colname]
  | Some rvar => [aliasname (BaseRangeVar_alias rvar); colname]
  end.

(** The resolution of one element of a tuple, as the loop of
    [get_rvar_var] performs it. *)
Definition get_rvar_var_element (rvar : option BaseRangeVar)
    (el : TupleElement) : Result TupleElement :=
  val ← get_rvar_var rvar (TupleElement_name el) false None;
  Ok (mkTupleElement (TupleElement_path_id el) (TupleElement_name el)
                     (Some val)).

(** A named tuple of two columns. *)
Definition ex_tuple_elements : list TupleElement :=
  [mkTupleElement "p.first"
     (inr (ColumnRef_var (mkColumnRef ["first"] (Some false) None))) None;
   mkTupleElement "p.second"
     (inr (ColumnRef_var (mkColumnRef ["second"] None None))) None].

Definition ex_tuple : OutputVar := TupleVar ex_tuple_elements true.

Definition ex_rvar : BaseRangeVar :=
  RangeVar (inl (Relation (mkRelation (Some "edgedb_test") "A_data" None None)))
           (mkAlias "A~1" []).

(** ** Induction on output variables *)

Section OutputVar_induction.

Variable P : OutputVar → Prop.
Hypothesis P_ColumnRef : ∀ c, P (ColumnRef_var c).
Hypothesis P_TupleVar :
  ∀ elements named,
    Forall (λ el, match TupleElement_name el with
                  | inr v => P v
                  | inl _ => True
                  end) elements →
    P (TupleVar elements named).

(** Induction on an output variable through the names of the elements of
    its tuples. *)
Fixpoint OutputVar_name_ind (var : OutputVar) : P var :=
  match var with
  | ColumnRef_var c => P_ColumnRef c
  | TupleVar elements named =>
      P_TupleVar elements named
        ((fix go (els : list TupleElement) :=
            match els
                  return Forall (λ el, match TupleElement_name el with
                                       | inr v => P v
                                       | inl _ => True
                                       end) els
            with
            | [] => List.Forall_nil _
            | el :: els =>
                List.Forall_cons _ el els
                  (match el
                         return match TupleElement_name el with
                                | inr v => P v
                                | inl _ => True
                                end
                   with
                   | mkTupleElement _ n _ =>
                       match n return match n with
                                      | inr v => P v
                                      | inl _ => True
                                      end
                       with
                       | inr v => OutputVar_name_ind v
                       | inl _ => I
                       end
                   end)
                  (go els)
            end) elements)
  end.

End OutputVar_induction.

(** ** Helpers that wrap a relation *)

Section Wrappers.

Context {AliasGenerator : Type}.
Variable aliases_get :
  option string → AliasGenerator → string * AliasGenerator.

(** [rvar_for_rel(rel, *, lateral=False, colnames=[], env)].  A statement
    is a [pgast.Query]; [rel.name or 'q'] is ['q'] when the name is
    missing or empty. *)
Definition rvar_for_rel (rel : BaseRelation) (lateral : bool)
    (colnames : list string) : @M AliasGenerator BaseRangeVar :=
  match rel with
  | SelectStmt q =>
      let hint :=
        match name q with
        | Some n => if bool_decide (n = "") then "q" else n
        | None => "q"
        end in
      M_bind (env_aliases_get aliases_get (Some hint))
        (λ alias,
           M_ret (RangeSubselect rel (mkAlias alias colnames)
                                 (Some lateral)))
  | Relation r =>
      M_bind (env_aliases_get aliases_get (Some (Relation_name r)))
        (λ alias, M_ret (RangeVar (inl rel) (mkAlias alias colnames)))
  end.

(** [cte_for_query(rel, *, env)]. *)
Definition cte_for_query (rel : Query) : @M AliasGenerator CommonTableExpr :=
  M_bind (env_aliases_get aliases_get (name rel))
    (λ alias,
       M_ret (mkCommonTableExpr None (SelectStmt rel)
                                (Some (mkAlias alias [])))).

End Wrappers.

(** ** Reading a composed query back *)

(** The entries of a chain of [n] set operations, read from the composed
    node down its left arguments: the relation at the bottom, and the
    [(op, relation)] pairs on the way up.  Only nodes built as
    [SelectStmt(all=True, larg=..., op=..., rarg=...)] are read. *)
Fixpoint unchain (n : nat) (q : BaseRelation)
    : option (BaseRelation * list (string * BaseRelation)) :=
  match n with
  | 0 => Some (q, [])
  | S n =>
      match q with
      | SelectStmt s =>
          match all s, op s, larg s, rarg s with
          | Some true, Some o, Some l, Some r =>
              match unchain n l with
              | Some (first, rest) => Some (first, rest ++ [(o, r)])
              | None => None
              end
          | _, _, _, _ => None
          end
      | Relation _ => None
      end
  end.

(** ** The branches of a pointer range *)

(** The names of the columns that a branch selects: the last component of
    each reference of its target list. *)
Definition target_columns (rel : BaseRelation) : list string :=
  match rel with
  | SelectStmt s =>
      omap (λ t, last (ColumnRef_name (ResTarget_val t))) (target_list s)
  | Relation _ => []
  end.

(** The range variable over the table of a storage-owning link, under the
    alias [a]. *)
Definition link_table_rvar (s : Schema) (ptrcls : Link) (a : string)
    : BaseRangeVar :=
  RangeVar (inl (link_table s ptrcls)) (mkAlias a []).

(** The branch over the table of a storage-owning link: the columns are
    qualified by the alias of the table, and the table is kept in
    [rptr_rvar]. *)
Definition ptrcls_storage_branch (cols : list string) (table : BaseRangeVar)
    : BaseRelation :=
  SelectStmt
    (set_target_list
       (set_rptr_rvar (set_from_clause new_SelectStmt [table]) (Some table))
       (map (λ colname,
               mkResTarget (Some colname)
                 (mkColumnRef
                    [aliasname (BaseRangeVar_alias table); colname]
                    None None))
            cols)).

(** The branch over an overlay of a link: the columns are bare. *)
Definition ptrcls_overlay_branch (cols : list string) (rvar : BaseRangeVar)
    : BaseRelation :=
  SelectStmt
    (set_from_clause
       (set_target_list new_SelectStmt
          (map (λ col, mkResTarget None (mkColumnRef [col] None None)) cols))
       [rvar]).

(** The overlays that a range takes into account for a name: the ones
    registered for it, when the overlays are requested. *)
Definition overlays_for {AliasGenerator : Type}
    (env : @Environment AliasGenerator) (include_overlays : bool)
    (n : Name) : list (string * OverlayRel) :=
  if include_overlays then default [] (rel_overlays env !! n) else [].

(** ** More of the concrete compilation unit *)

(** The schema [ex_schema] with one more virtual type, [U], whose only
    child is [A], listed twice. *)
Definition ex_schema_single : Schema :=
  {| objtype_material_type := objtype_material_type ex_schema;
     objtype_get_name := objtype_get_name ex_schema;
     objtype_get_is_virtual :=
       λ o, bool_decide (ObjectType_id o = "U")
            || objtype_get_is_virtual ex_schema o;
     objtype_children :=
       λ o, if bool_decide (ObjectType_id o = "U")
            then [ex_type "A"; ex_type "A"]
            else objtype_children ex_schema o;
     objtype_descendants := objtype_descendants ex_schema;
     objtype_getptr := objtype_getptr ex_schema;
     link_material_type := link_material_type ex_schema;
     link_get_source := link_get_source ex_schema;
     get_shortname := get_shortname ex_schema;
     get_backend_name := get_backend_name ex_schema;
     get_pointer_storage_column_name :=
       get_pointer_storage_column_name ex_schema |}.

Definition ex_env_single : @Environment nat :=
  mkEnvironment ex_schema_single (rel_overlays ex_env_overlays) 0.

(** [union X], [replace Z] registered for the type [A]. *)
Definition ex_env_replaced : @Environment nat :=
  mkEnvironment ex_schema
    (<[mkName "test" "A" := [("union", ex_cte "X"); ("replace", ex_cte "Z")]]>
       ∅)
    0.

(** ** The storage tables of a pointer range *)

(** The branches of a composed query, read down its left arguments to the
    first statement that is not a set operation. *)
Fixpoint chain_branches (q : BaseRelation) : list BaseRelation :=
  match q with
  | SelectStmt s =>
      match op s, larg s, rarg s with
      | Some _, Some l, Some r => chain_branches l ++ [r]
      | _, _, _ => [q]
      end
  | Relation _ => [q]
  end.

(** The table that a branch of a pointer range keeps in [rptr_rvar]. *)
Definition branch_storage_table (rel : BaseRelation) : option BaseRelation :=
  match rel with
  | SelectStmt q =>
      match rptr_rvar q with
      | Some (RangeVar (inl rel) _) => Some rel
      | _ => None
      end
  | Relation _ => None
  end.

(** The storage tables that a pointer range ranges over: the table
    itself when the range is a range variable over a table, and the
    tables of the branches of its query when it is a subquery. *)
Definition range_storage_tables (rvar : BaseRangeVar) : list BaseRelation :=
  match rvar with
  | RangeVar (inl rel) _ => [rel]
  | RangeVar (inr _) _ => []
  | RangeSubselect q _ _ => omap branch_storage_table (chain_branches q)
  end.

(** The two kinds of branches of a pointer range. *)
Definition pointer_branch (s : Schema) (rel : BaseRelation) : Prop :=
  (∃ cols p a, rel = ptrcls_storage_branch cols (link_table_rvar s p a))
  ∨ (∃ cols rvar, rel = ptrcls_overlay_branch cols rvar).

(** * Properties *)

Section Properties.

Context {AliasGenerator : Type}.
Variable aliases_get :
  option string → AliasGenerator → string * AliasGenerator.

Implicit Types (env : @Environment AliasGenerator) (stype : Object).
Implicit Types (set_ops : list (string * BaseRelation)).

Local Abbreviation M := (@M AliasGenerator).

(** *** Compilation units *)

Lemma same_unit_refl env : same_unit env env.
Proof. done. Qed.

Lemma same_unit_trans env1 env2 env3 :
  same_unit env1 env2 → same_unit env2 env3 → same_unit env1 env3.
Proof. intros [??] [??]. split; congruence. Qed.

Lemma same_unit_after_alias env hint :
  same_unit env (after_alias aliases_get env hint).
Proof. done. Qed.

#[local] Hint Resolve same_unit_refl same_unit_after_alias : core.

(** *** Sequencing *)

Lemma M_bind_Ok {A B} (m : M A) (k : A → M B) env a env' :
  m env = Ok (a, env') → M_bind m k env = k a env'.
Proof. unfold M_bind. by intros ->. Qed.

Lemma M_bind_Raise {A B} (m : M A) (k : A → M B) env e :
  m env = Raise e → M_bind m k env = Raise e.
Proof. unfold M_bind. by intros ->. Qed.

(** A loop whose body keeps an invariant, indexed by the items already
    processed, runs to its end and establishes it for all the items. *)
Lemma for_each_invariant {A B} (body : B → A → M B)
    (I : list A → B → Environment → Prop) (P : A → Prop) :
  (∀ processed x acc env,
     P x → I processed acc env →
     ∃ acc' env', body acc x env = Ok (acc', env')
                  ∧ I (processed ++ [x]) acc' env') →
  ∀ xs processed acc env,
    Forall P xs → I processed acc env →
    ∃ acc' env', for_each body xs acc env = Ok (acc', env')
                 ∧ I (processed ++ xs) acc' env'.
Proof.
  intros Hbody xs. induction xs as [|x xs IH]; intros processed acc env HP HI.
  - exists acc, env. by rewrite app_nil_r.
  - apply Forall_cons in HP as [Hx HP].
    destruct (Hbody processed x acc env Hx HI) as (acc' & env' & Hrun & HI').
    destruct (IH _ _ _ HP HI') as (acc'' & env'' & Hrun' & HI'').
    exists acc'', env''. split.
    + cbn [for_each]. by rewrite (M_bind_Ok _ _ _ _ _ Hrun).
    + by rewrite <-app_assoc in HI''.
Qed.

(** *** The loop of the set combinator *)

Lemma range_from_queryset_loop rest acc :
  larg
    (fold_left
       (λ (qry : Query) '(op, rarg),
          let qry := set_op_rarg qry op rarg in
          new_SelectStmt_all_larg (SelectStmt qry))
       rest (new_SelectStmt_all_larg acc))
  = Some (left_deep_chain acc rest).
Proof.
  revert acc. induction rest as [|[o rel] rest IH]; intros acc; [done|].
  cbn [fold_left left_deep_chain]. apply IH.
Qed.

Lemma range_from_queryset_many o0 first e rest stype env :
  range_from_queryset aliases_get ((o0, first) :: e :: rest) stype env
  = let hint := Some (Name_name (get_shortname (schema env) stype)) in
    Ok (RangeSubselect (left_deep_chain first (e :: rest))
          (mkAlias (aliases_get hint (aliases env)).1 []) None,
        after_alias aliases_get env hint).
Proof.
  unfold range_from_queryset.
  destruct (decide _) as [_|Hn]; [|cbn in Hn; lia].
  rewrite range_from_queryset_loop. done.
Qed.

Lemma range_from_queryset_one o s rvar rvars stype env :
  range_from_queryset aliases_get
    [(o, SelectStmt (set_from_clause s (rvar :: rvars)))] stype env
  = Ok (rvar, env).
Proof. done. Qed.

Lemma range_from_queryset_empty stype env :
  range_from_queryset aliases_get [] stype env = Raise IndexError.
Proof. done. Qed.

(** The combinator returns on every non-empty list of single-source
    branches. *)
Lemma range_from_queryset_returns set_ops stype env :
  set_ops ≠ [] → Forall single_source_branch set_ops →
  ∃ rvar env', range_from_queryset aliases_get set_ops stype env
               = Ok (rvar, env')
               ∧ same_unit env env'.
Proof.
  destruct set_ops as [|[o0 first] [|e rest]]; [done| |]; intros _ Hall.
  - apply Forall_cons in Hall as [(s & rvar & Hb & Hs) _].
    cbn in Hb. subst first.
    exists rvar, env. split; [|done].
    unfold range_from_queryset. cbn. by rewrite Hs.
  - rewrite range_from_queryset_many. eauto.
Qed.

(** [left_deep_chain] composes in the order of the list. *)
Lemma left_deep_chain_snoc acc rest o rel :
  left_deep_chain acc (rest ++ [(o, rel)])
  = set_operation (left_deep_chain acc rest) o rel.
Proof.
  revert acc. induction rest as [|[o' rel'] rest IH]; intros acc; [done|].
  cbn. apply IH.
Qed.

(** Claim C7.  On a list of one entry whose statement has a range
    variable in its [from_clause], the set combinator returns that range
    variable itself, and allocates no alias.  On a list of more than one
    entry it returns a subquery range over the left-deep chain of the
    entries, taken in the order of the list: the chain starts at the
    relation of the first entry, and each later entry is combined on the
    right of what precedes it.  The alias of the subquery is allocated
    from the target's short name. *)
Theorem range_from_queryset_collapses_or_chains stype env :
  (∀ o s rvar rvars,
     range_from_queryset aliases_get
       [(o, SelectStmt (set_from_clause s (rvar :: rvars)))] stype env
     = Ok (rvar, env))
  ∧ (∀ o0 first e rest,
       range_from_queryset aliases_get ((o0, first) :: e :: rest) stype env
       = let hint := Some (Name_name (get_shortname (schema env) stype)) in
         Ok (RangeSubselect (left_deep_chain first (e :: rest))
               (mkAlias (aliases_get hint (aliases env)).1 []) None,
             after_alias aliases_get env hint))
  ∧ (∀ acc rest o rel,
       left_deep_chain acc (rest ++ [(o, rel)])
       = set_operation (left_deep_chain acc rest) o rel).
Proof.
  split; [|split].
  - intros. apply range_from_queryset_one.
  - intros. apply range_from_queryset_many.
  - intros. apply left_deep_chain_snoc.
Qed.

(** *** Object-type ranges *)

Lemma single_source_path_branch o pid rvar :
  single_source_branch (o, path_branch pid rvar).
Proof. by eexists _, rvar. Qed.

Lemma range_for_material_objtype_overlay_eq pid set_ops o cte env :
  range_for_material_objtype_overlay aliases_get pid set_ops (o, cte) env
  = let hint := OverlayRel_name cte in
    let rvar := RangeVar cte (mkAlias (aliases_get hint (aliases env)).1 []) in
    Ok ((if bool_decide (o = "replace") then [] else set_ops)
          ++ [(if bool_decide (o = "replace") then "union" else o,
               path_branch pid rvar)],
        after_alias aliases_get env hint).
Proof.
  unfold range_for_material_objtype_overlay, M_bind, env_aliases_get. cbn.
  by destruct (bool_decide _).
Qed.

Lemma range_for_material_objtype_set_ops_returns rvar pid overlays env :
  ∃ set_ops env',
    range_for_material_objtype_set_ops aliases_get rvar pid overlays env
    = Ok (set_ops, env')
    ∧ same_unit env env' ∧ set_ops ≠ []
    ∧ Forall single_source_branch set_ops.
Proof.
  unfold range_for_material_objtype_set_ops.
  apply (for_each_invariant
           (range_for_material_objtype_overlay aliases_get pid)
           (λ _ acc env', same_unit env env' ∧ acc ≠ []
                          ∧ Forall single_source_branch acc)
           (λ _, True)) with (processed := []).
  - intros _ [o cte] acc env1 _ (Hu & Hne & Hall).
    rewrite range_for_material_objtype_overlay_eq. cbn zeta.
    eexists _, _. split; [done|]. split; [|split].
    + eapply same_unit_trans; eauto.
    + intros E. by apply app_eq_nil in E as [_ ?].
    + apply Forall_app. split.
      * by destruct (bool_decide _).
      * repeat constructor. apply single_source_path_branch.
  - by apply Forall_true.
  - split; [done|]. split; [done|].
    repeat constructor. apply (single_source_path_branch _ pid rvar).
Qed.

Lemma range_for_material_objtype_returns objtype pid include_overlays env :
  ∃ rvar env',
    range_for_material_objtype aliases_get objtype pid include_overlays env
    = Ok (rvar, env')
    ∧ same_unit env env'.
Proof.
  unfold range_for_material_objtype, M_bind, get_env, env_aliases_get, M_ret.
  destruct (get_backend_name _ _) as [table_schema_name table_name].
  cbn [schema rel_overlays after_alias].
  destruct (rel_overlays env !! _) as [[|ov ovs]|]; [by eauto| |by eauto].
  destruct include_overlays; [|by eauto].
  match goal with
  | |- context [range_for_material_objtype_set_ops _ ?r ?p ?o ?e] =>
      destruct (range_for_material_objtype_set_ops_returns r p o e)
        as (set_ops & env1 & -> & Hu & Hne & Hall)
  end.
  match goal with
  | |- context [range_from_queryset _ ?l ?t ?e] =>
      destruct (range_from_queryset_returns l t e Hne Hall)
        as (rvar & env2 & -> & Hu')
  end.
  exists rvar, env2. split; [done|].
  eapply same_unit_trans; [|eapply same_unit_trans]; eauto.
Qed.

Lemma set_query_path_info_marks d p rvar :
  let q := BaseRangeVar_query (BaseRangeVar_set_query_path_info d p rvar) in
  BaseRelation_is_distinct q = Some d ∧ BaseRelation_path_id q = Some p.
Proof.
  destruct rvar as [[[r|s]|cte] a|[r|s] a l]; cbn; try done.
  by destruct (cte_query cte).
Qed.

(** Whatever [range_for_objtype] returns has gone through the two
    assignments at its end. *)
Lemma range_for_objtype_marked depth objtype pid include_overlays env
    rvar env' :
  range_for_objtype aliases_get depth objtype pid include_overlays env
  = Ok (rvar, env') →
  BaseRelation_is_distinct (BaseRangeVar_query rvar) = Some true
  ∧ BaseRelation_path_id (BaseRangeVar_query rvar) = Some pid.
Proof.
  destruct depth as [|depth]; [done|].
  cbn [range_for_objtype]. unfold M_bind at 1. cbn [get_env].
  unfold M_bind at 1.
  match goal with |- context [match ?m env with _ => _ end] =>
    destruct (m env) as [[rvar0 env0]|e] end; [|done].
  unfold M_ret. intros [= <- _]. apply set_query_path_info_marks.
Qed.

(** On a schema that lets the recursion finish, [range_for_objtype]
    returns. *)
Lemma range_for_objtype_returns depth objtype pid include_overlays env :
  objtype_resolvable (schema env) depth objtype = true →
  ∃ rvar env',
    range_for_objtype aliases_get depth objtype pid include_overlays env
    = Ok (rvar, env')
    ∧ same_unit env env'.
Proof.
  revert objtype env.
  induction depth as [|depth IH]; intros objtype env; [done|].
  cbn [objtype_resolvable range_for_objtype].
  unfold M_bind at 1. cbn [get_env]. unfold M_bind at 1.
  destruct (negb _).
  - intros _.
    destruct (range_for_material_objtype_returns objtype pid
                include_overlays env) as (rvar & env' & -> & Hu).
    unfold M_ret. eauto.
  - cbn zeta.
    destruct (elements _) as [|c cs] eqn:Hcs; [done|]. intros Hall.
    assert (Forall (λ c, objtype_resolvable (schema env) depth c = true)
              (c :: cs)) as HP.
    { apply Forall_forall. intros x Hx.
      eapply forallb_forall in Hall; [done|]. by apply list_elem_of_In. }
    clear Hall.
    match goal with
    | |- context [for_each ?body _ _] =>
        destruct (for_each_invariant body
                    (λ processed acc env',
                       same_unit env env'
                       ∧ Forall single_source_branch acc
                       ∧ length acc = length processed)
                    (λ c, objtype_resolvable (schema env) depth c = true))
          with (xs := c :: cs) (processed := @nil ObjectType)
               (acc := @nil (string * BaseRelation)) (env := env)
          as (set_ops & env1 & Hrun & Hu & Hall & Hlen)
    end.
    + intros processed x acc env1 Hx (Hu & Hall & Hlen).
      rewrite <-(proj1 Hu) in Hx.
      destruct (IH x env1 Hx) as (c_rvar & env2 & Hrun & Hu').
      eexists _, env2. split.
      { rewrite (M_bind_Ok _ _ _ _ _ Hrun). done. }
      split; [by eapply same_unit_trans|]. split.
      * apply Forall_app. split; [done|].
        repeat constructor. apply (single_source_path_branch _ pid c_rvar).
      * rewrite !length_app. cbn. lia.
    + done.
    + done.
    + unfold M_bind at 1. rewrite Hrun.
      destruct (range_from_queryset_returns set_ops
                  (ObjectType_obj objtype) env1)
        as (rvar & env2 & -> & Hu'); [|done|].
      { intros ->. done. }
      unfold M_ret. eexists _, env2. split; [done|].
      by eapply same_unit_trans.
Qed.

(** The list of set operations for the overlays [oX X], [oY Y],
    [replace Z], [oW W]: the entry [replace Z] empties the list, the
    branch of the type's own table included. *)
Lemma range_for_material_objtype_set_ops_replace rvar pid
    oX (X : OverlayRel) oY (Y Z : OverlayRel) oW (W : OverlayRel) env :
  oW ≠ "replace" →
  ∃ aZ aW env',
    range_for_material_objtype_set_ops aliases_get rvar pid
      [(oX, X); (oY, Y); ("replace", Z); (oW, W)] env
    = Ok ([("union", path_branch pid (RangeVar Z (mkAlias aZ [])));
           (oW, path_branch pid (RangeVar W (mkAlias aW [])))], env')
    ∧ same_unit env env'.
Proof.
  intros HoW. unfold range_for_material_objtype_set_ops.
  cbn [for_each]. unfold M_bind.
  repeat (rewrite range_for_material_objtype_overlay_eq; cbn zeta iota beta).
  rewrite (bool_decide_eq_false_2 _ HoW).
  rewrite (bool_decide_eq_true_2 ("replace" = "replace") eq_refl).
  unfold M_ret. cbn [app]. eexists _, _, _. split; [done|]. done.
Qed.

(** Claim C1, amended.  For a type whose registered overlays are
    [oX X], [oY Y], [replace Z], [oW W], with inclusion of the overlays
    requested, the range of the material type is the subquery over the
    chain of two branches, [Z] then [W]: the entry [replace Z] discards
    every branch accumulated before it, the branch of the type's own
    table included. *)
Theorem range_for_material_objtype_replace objtype pid
    oX (X : OverlayRel) oY (Y Z : OverlayRel) oW (W : OverlayRel) env :
  rel_overlays env
    !! objtype_get_name (schema env)
         (objtype_material_type (schema env) objtype)
  = Some [(oX, X); (oY, Y); ("replace", Z); (oW, W)] →
  oW ≠ "replace" →
  ∃ aZ aW a env',
    range_for_material_objtype aliases_get objtype pid true env
    = Ok (RangeSubselect
            (left_deep_chain (path_branch pid (RangeVar Z (mkAlias aZ [])))
               [(oW, path_branch pid (RangeVar W (mkAlias aW [])))])
            (mkAlias a []) None,
          env').
Proof.
  intros Hov HoW.
  unfold range_for_material_objtype, M_bind, get_env, env_aliases_get.
  destruct (get_backend_name _ _) as [table_schema_name table_name].
  cbn [schema rel_overlays after_alias]. rewrite Hov.
  match goal with
  | |- context [range_for_material_objtype_set_ops _ ?r ?p _ ?e] =>
      destruct (range_for_material_objtype_set_ops_replace
                  r p oX X oY Y Z oW W e HoW)
        as (aZ & aW & env1 & -> & Hu)
  end.
  rewrite range_from_queryset_many. cbn zeta.
  by eexists aZ, aW, _, _.
Qed.

(** Claim C2, amended.  On the empty list the set combinator raises
    [IndexError], and so does [range_for_objtype] on a virtual type
    without children: no range is synthesized. *)
Theorem empty_composition_raises_IndexError depth objtype pid
    include_overlays env :
  objtype_get_is_virtual (schema env) objtype = true →
  objtype_children (schema env) objtype = [] →
  range_from_queryset aliases_get [] (ObjectType_obj objtype) env
  = Raise IndexError
  ∧ range_for_objtype aliases_get (S depth) objtype pid include_overlays env
    = Raise IndexError.
Proof.
  intros Hv Hc. split; [done|].
  cbn [range_for_objtype]. unfold M_bind, get_env. rewrite Hv, Hc. done.
Qed.

(** Claim C5.  On a schema that lets the recursion over the children
    finish, [range_for_objtype] returns a range whose query has
    [is_distinct = True] and the given path identifier, for a virtual and
    for a concrete type alike. *)
Theorem range_for_objtype_distinct_and_stamped depth objtype pid
    include_overlays env :
  objtype_resolvable (schema env) depth objtype = true →
  ∃ rvar env',
    range_for_objtype aliases_get depth objtype pid include_overlays env
    = Ok (rvar, env')
    ∧ BaseRelation_is_distinct (BaseRangeVar_query rvar) = Some true
    ∧ BaseRelation_path_id (BaseRangeVar_query rvar) = Some pid.
Proof.
  intros Hres.
  destruct (range_for_objtype_returns depth objtype pid include_overlays
              env Hres) as (rvar & env' & Hrun & _).
  exists rvar, env'. split; [done|].
  by eapply range_for_objtype_marked.
Qed.

(** *** Pointer ranges *)

Lemma storage_tables_app set_ops1 set_ops2 :
  storage_tables (set_ops1 ++ set_ops2)
  = storage_tables set_ops1 ++ storage_tables set_ops2.
Proof. apply omap_app. Qed.

(** The overlay loop of a pointer range appends one branch per entry,
    under the entry's own operation, after the branches it was given. *)
Lemma range_for_ptrcls_overlays_appends cols overlays set_ops env :
  ∃ branches env',
    range_for_ptrcls_overlays aliases_get cols overlays set_ops env
    = Ok (set_ops ++ branches, env')
    ∧ same_unit env env'
    ∧ map fst branches = map fst overlays
    ∧ storage_tables branches = []
    ∧ Forall single_source_branch branches.
Proof.
  unfold range_for_ptrcls_overlays.
  match goal with
  | |- context [for_each ?body _ _ _] =>
      destruct (for_each_invariant body
                  (λ processed acc env',
                     same_unit env env'
                     ∧ ∃ branches,
                         acc = set_ops ++ branches
                         ∧ map fst branches = map fst processed
                         ∧ storage_tables branches = []
                         ∧ Forall single_source_branch branches)
                  (λ _, True))
        with (xs := overlays) (processed := @nil (string * OverlayRel))
             (acc := set_ops) (env := env)
        as (acc & env' & Hrun & Hu & branches & -> & Hops & Hst & Hall)
  end.
  - intros processed [o cte] acc env1 _ (Hu & branches & -> & Hops & Hst & Hall).
    unfold M_bind, env_aliases_get, M_ret.
    eexists _, _. split; [done|]. split; [by eapply same_unit_trans|].
    eexists (branches ++ [_]). split; [by rewrite app_assoc|].
    split; [by rewrite !map_app, Hops|]. split.
    + rewrite storage_tables_app, Hst. done.
    + apply Forall_app. split; [done|]. repeat constructor.
      by eexists _, _.
  - by apply Forall_true.
  - split; [done|]. exists []. by rewrite app_nil_r.
  - exists branches, env'. done.
Qed.

Lemma fold_set_target_list_fields (f : Query → string → list ResTarget) cols
    (q : Query) :
  let q' := fold_left (λ q c, set_target_list q (f q c)) cols q in
  from_clause q' = from_clause q ∧ rptr_rvar q' = rptr_rvar q.
Proof.
  revert q. induction cols as [|c cols IH]; intros q; [done|].
  cbn. destruct (IH (set_target_list q (f q c))) as [-> ->]. done.
Qed.

(** One turn of the loop over the sources. *)
Lemma range_for_ptrcls_source_spec linkname cols include_overlays set_ops
    (ptrclses : gset Link) source env :
  ∃ set_ops' ptrclses' env',
    range_for_ptrcls_source aliases_get linkname cols include_overlays
      (set_ops, ptrclses) source env
    = Ok ((set_ops', ptrclses'), env')
    ∧ same_unit env env'
    ∧ match objtype_getptr (schema env) source linkname with
      | None => set_ops' = set_ops ∧ ptrclses' = ptrclses
      | Some ptr =>
          let src_ptrcls := link_material_type (schema env) ptr in
          if decide (src_ptrcls ∈ ptrclses)
          then set_ops' = set_ops ∧ ptrclses' = ptrclses
          else
            ptrclses' = ptrclses ∪ {[src_ptrcls]}
            ∧ ∃ base branches,
                set_ops' = set_ops ++ (("union", base) :: branches)
                ∧ storage_tables [("union", base)]
                  = [link_table (schema env) src_ptrcls]
                ∧ single_source_branch ("union", base)
                ∧ storage_tables branches = []
                ∧ Forall single_source_branch branches
                ∧ map fst branches
                  = if include_overlays
                    then map fst
                           (default []
                              (rel_overlays env
                                 !! get_shortname (schema env)
                                      (Link_obj src_ptrcls)))
                    else []
      end.
Proof.
  unfold range_for_ptrcls_source, M_bind at 1, get_env.
  destruct (objtype_getptr _ _ _) as [ptr|]; [|by eexists _, _, _].
  cbn zeta. destruct (decide _) as [|Hnew]; [by eexists _, _, _|].
  unfold M_bind at 1, table_from_ptrcls, M_bind, get_env, env_aliases_get,
    M_ret.
  destruct (get_backend_name _ _) as [table_schema_name table_name] eqn:Hbn.
  cbn [schema rel_overlays after_alias].
  match goal with
  | |- context [fold_left (λ q c, set_target_list q (@?f q c)) cols ?q0] =>
      pose proof (fold_set_target_list_fields f cols q0) as Hfields;
      cbn zeta in Hfields;
      set (qry := fold_left (λ q c, set_target_list q (f q c)) cols q0) in *
  end.
  destruct Hfields as [Hfrom Hrptr].
  assert (storage_tables [("union", SelectStmt qry)]
          = [link_table (schema env) (link_material_type (schema env) ptr)])
    as Hst.
  { unfold storage_tables, link_table. cbn. rewrite Hrptr, Hbn. done. }
  assert (single_source_branch ("union", SelectStmt qry)) as Hsingle.
  { eexists qry, _. split; [done|]. by rewrite Hfrom. }
  destruct (rel_overlays env !! _) as [[|ov ovs]|] eqn:Hov;
    [| destruct include_overlays |].
  - eexists _, _, _. split; [done|]. split; [done|]. split; [done|].
    eexists _, []. by destruct include_overlays.
  - match goal with
    | |- context [range_for_ptrcls_overlays _ ?c ?o ?l ?e] =>
        destruct (range_for_ptrcls_overlays_appends c o l e)
          as (branches & env1 & -> & Hu & Hops & Hst' & Hall)
    end.
    eexists _, _, env1. split; [done|].
    split; [eapply same_unit_trans; eauto|]. split; [done|].
    eexists _, branches. by rewrite <-app_assoc.
  - eexists _, _, _. split; [done|]. split; [done|]. split; [done|].
    by eexists _, [].
  - eexists _, _, _. split; [done|]. split; [done|]. split; [done|].
    eexists _, []. by destruct include_overlays.
Qed.

Lemma storage_owners_snoc s linkname processed source :
  storage_owners s linkname (processed ++ [source])
  = storage_owners s linkname processed
    ∪ match objtype_getptr s source linkname with
      | Some ptr => {[link_material_type s ptr]}
      | None => ∅
      end.
Proof.
  unfold storage_owners. rewrite omap_app, list_to_set_app_L. f_equal.
  cbn. destruct (objtype_getptr _ _ _); cbn; set_solver.
Qed.

(** The loop over the sources: it returns, the set of the links it has
    seen is the set of the storage owners of the sources, and the storage
    branches are the tables of these owners, each once. *)
Lemma range_for_ptrcls_set_ops_spec ptrcls include_overlays env :
  let s := schema env in
  ∃ set_ops ptrclses owners env',
    range_for_ptrcls_set_ops aliases_get ptrcls include_overlays env
    = Ok ((set_ops, ptrclses), env')
    ∧ same_unit env env'
    ∧ ptrclses = storage_owners s (get_shortname s (Link_obj ptrcls))
                   (range_for_ptrcls_sources s ptrcls)
    ∧ NoDup owners ∧ list_to_set owners = ptrclses
    ∧ storage_tables set_ops = map (link_table s) owners
    ∧ Forall single_source_branch set_ops
    ∧ (include_overlays = false → length set_ops = length owners).
Proof.
  cbn zeta. unfold range_for_ptrcls_set_ops, M_bind at 1, get_env.
  set (linkname := get_shortname (schema env) (Link_obj ptrcls)).
  set (cols := [_; _]).
  destruct (for_each_invariant
              (range_for_ptrcls_source aliases_get linkname cols
                 include_overlays)
              (λ processed acc env',
                 same_unit env env'
                 ∧ acc.2 = storage_owners (schema env) linkname processed
                 ∧ ∃ owners,
                     NoDup owners ∧ list_to_set owners = acc.2
                     ∧ storage_tables acc.1
                       = map (link_table (schema env)) owners
                     ∧ Forall single_source_branch acc.1
                     ∧ (include_overlays = false
                        → length acc.1 = length owners))
              (λ _, True))
    with (xs := range_for_ptrcls_sources (schema env) ptrcls)
         (processed := @nil ObjectType)
         (acc := (@nil (string * BaseRelation), (∅ : gset Link)))
         (env := env)
    as ([set_ops ptrclses] & env' & Hrun & Hu & Hseen & owners & Hnd & Hset
          & Hst & Hall & Hlen).
  - intros processed source [set_ops ptrclses] env1 _.
    cbn [fst snd].
    intros (Hu & Hseen & owners & Hnd & Hset & Hst & Hall & Hlen).
    destruct (range_for_ptrcls_source_spec linkname cols include_overlays
                set_ops ptrclses source env1)
      as (set_ops' & ptrclses' & env2 & Hrun & Hu' & Hcase).
    exists (set_ops', ptrclses'), env2. split; [done|].
    split; [by eapply same_unit_trans|]. cbn [fst snd].
    rewrite storage_owners_snoc, <-Hseen.
    destruct Hu as [Hschema Hreg]. rewrite Hschema in Hcase.
    destruct (objtype_getptr _ _ _) as [ptr|].
    + cbn zeta in Hcase. destruct (decide _) as [Hin|Hnew].
      * destruct Hcase as [-> ->]. split; [set_solver|]. by exists owners.
      * destruct Hcase as (-> & base & branches & -> & Hbase & Hsingle
                             & Hbr & Hbrs & Hops).
        split; [done|].
        exists (owners ++ [link_material_type (schema env) ptr]).
        split.
        { apply NoDup_app. split; [done|]. split; [|apply NoDup_singleton].
          intros x Hx ->%list_elem_of_singleton. apply Hnew.
          rewrite <-Hset. by apply elem_of_list_to_set. }
        split; [rewrite list_to_set_app_L, Hset; set_solver|].
        split.
        { rewrite (storage_tables_app set_ops (_ :: branches)).
          change (("union", base) :: branches)
            with ([("union", base)] ++ branches).
          rewrite (storage_tables_app [_] branches), Hbase, Hbr, Hst.
          by rewrite map_app, app_nil_r. }
        split.
        { apply Forall_app. split; [done|]. by apply Forall_cons. }
        intros ->. rewrite !length_app, Hlen by done.
        destruct branches; [done|discriminate Hops].
    + destruct Hcase as [-> ->]. split; [set_solver|]. by exists owners.
  - by apply Forall_true.
  - split; [done|]. split; [done|]. exists []. cbn.
    split; [apply NoDup_nil_2|]. done.
  - cbn [fst snd app] in *. exists set_ops, ptrclses, owners, env'. done.
Qed.

(** In [range_for_ptrcls], for a source whose storage-owning link is new,
    the branches accumulated so far are kept, the branch of the link's
    table is appended, and every overlay registered for the link is
    appended after it under its own operation, whatever it is. *)
Lemma range_for_ptrcls_source_keeps_branches linkname cols set_ops
    (ptrclses : gset Link) source ptr overlays env :
  objtype_getptr (schema env) source linkname = Some ptr →
  link_material_type (schema env) ptr ∉ ptrclses →
  rel_overlays env
    !! get_shortname (schema env)
         (Link_obj (link_material_type (schema env) ptr))
  = Some overlays →
  ∃ base branches env',
    range_for_ptrcls_source aliases_get linkname cols true
      (set_ops, ptrclses) source env
    = Ok ((set_ops ++ (("union", base) :: branches),
           ptrclses ∪ {[link_material_type (schema env) ptr]}), env')
    ∧ storage_tables [("union", base)]
      = [link_table (schema env) (link_material_type (schema env) ptr)]
    ∧ map fst branches = map fst overlays.
Proof.
  intros Hptr Hnew Hov.
  destruct (range_for_ptrcls_source_spec linkname cols true set_ops
              ptrclses source env)
    as (set_ops' & ptrclses' & env' & Hrun & _ & Hcase).
  rewrite Hptr in Hcase. cbn zeta in Hcase.
  destruct (decide _) as [|_]; [done|].
  destruct Hcase as (-> & base & branches & -> & Hbase & _ & _ & _ & Hops).
  rewrite Hov in Hops. by exists base, branches, env'.
Qed.

End Properties.

(** *** Column resolver *)


(** The tuple branch of [get_rvar_var]: each element is resolved by
    [get_rvar_var] itself, called without [optional] and [nullable]. *)
Lemma get_rvar_var_checked_tuple rvar elements named optional nullable :
  get_rvar_var_checked rvar (TupleVar elements named) optional nullable
  = (elements' ← result_mapM (get_rvar_var_element rvar) elements;
     Ok (TupleVar elements' named)).
Proof.
  cbn [get_rvar_var_checked]. f_equal.
  induction elements as [|el els IH]; [done|].
  cbn [result_mapM]. rewrite <-IH.
  unfold get_rvar_var_element, get_rvar_var.
  destruct (TupleElement_name el) as [|v]; [done|].
  by destruct (get_rvar_var_checked rvar v false None).
Qed.

Lemma get_column_bare rvar colname optional nullable :
  get_column rvar (inl colname) optional nullable
  = Ok (mkColumnRef (column_name rvar colname)
          (Some (default true nullable)) (Some optional)).
Proof. by destruct rvar, nullable. Qed.

Lemma get_column_ref rvar pre colname n o optional nullable :
  get_column rvar (inr (mkColumnRef (pre ++ [colname]) n o)) optional nullable
  = Ok (mkColumnRef (column_name rvar colname)
          (match nullable with Some b => Some b | None => n end) o).
Proof.
  unfold get_column. cbn [ColumnRef_name]. rewrite last_snoc.
  by destruct rvar, nullable.
Qed.

(** Claim C8, amended.  For a bare column name, the result is nullable
    when no [nullable] is given, an explicit [nullable] governs, and
    [optional] is the parameter.  For a column reference, [optional] is
    always the reference's own, and [nullable] is the reference's own
    when no [nullable] is given; an explicit [nullable] overrides it. *)
Theorem get_column_flags rvar pre colname n o optional :
  get_column rvar (inl colname) optional None
  = Ok (mkColumnRef (column_name rvar colname) (Some true) (Some optional))
  ∧ (∀ b, get_column rvar (inl colname) optional (Some b)
          = Ok (mkColumnRef (column_name rvar colname) (Some b)
                  (Some optional)))
  ∧ get_column rvar (inr (mkColumnRef (pre ++ [colname]) n o)) optional None
    = Ok (mkColumnRef (column_name rvar colname) n o)
  ∧ (∀ b, get_column rvar (inr (mkColumnRef (pre ++ [colname]) n o))
            optional (Some b)
          = Ok (mkColumnRef (column_name rvar colname) (Some b) o)).
Proof.
  repeat split; intros;
    first [apply get_column_bare | apply get_column_ref].
Qed.

(** Claim C10.  On a tuple, [get_rvar_var] resolves each element by
    calling itself on the name of the element with [optional=False] and
    [nullable=None]; the flags of the call on the tuple are not used, so
    the result is the same whatever they are. *)
Theorem get_rvar_var_tuple_ignores_flags rvar elements named optional
    nullable :
  get_rvar_var rvar (inr (TupleVar elements named)) optional nullable
  = (elements' ← result_mapM (get_rvar_var_element rvar) elements;
     Ok (TupleVar elements' named))
  ∧ get_rvar_var rvar (inr (TupleVar elements named)) optional nullable
    = get_rvar_var rvar (inr (TupleVar elements named)) false None
  ∧ (∀ el, get_rvar_var_element rvar el
           = (val ← get_rvar_var rvar (TupleElement_name el) false None;
              Ok (mkTupleElement (TupleElement_path_id el)
                    (TupleElement_name el) (Some val)))).
Proof.
  split; [|split].
  - apply get_rvar_var_checked_tuple.
  - cbn [get_rvar_var]. by rewrite !get_rvar_var_checked_tuple.
  - done.
Qed.






(** *** The claims on the concrete compilation unit *)

Lemma range_for_material_objtype_replace_witness :
  rel_overlays ex_env_overlays
    !! objtype_get_name ex_schema (objtype_material_type ex_schema (ex_type "A"))
  = Some [("union", ex_cte "X"); ("union", ex_cte "Y");
          ("replace", ex_cte "Z"); ("union", ex_cte "W")]
  ∧ ∃ aZ aW a env',
      range_for_material_objtype counter_aliases_get (ex_type "A") "p" true
        ex_env_overlays
      = Ok (RangeSubselect
              (left_deep_chain
                 (path_branch "p" (RangeVar (ex_cte "Z") (mkAlias aZ [])))
                 [("union",
                   path_branch "p" (RangeVar (ex_cte "W") (mkAlias aW [])))])
              (mkAlias a []) None,
            env').
Proof.
  assert (rel_overlays ex_env_overlays
            !! objtype_get_name ex_schema
                 (objtype_material_type ex_schema (ex_type "A"))
          = Some [("union", ex_cte "X"); ("union", ex_cte "Y");
                  ("replace", ex_cte "Z"); ("union", ex_cte "W")]) as Hov.
  { vm_compute. reflexivity. }
  split; [exact Hov|].
  apply (range_for_material_objtype_replace counter_aliases_get
           (ex_type "A") "p" "union" (ex_cte "X") "union" (ex_cte "Y")
           (ex_cte "Z") "union" (ex_cte "W") ex_env_overlays Hov).
  discriminate.
Defined.

(** With [union X], [union Y], [replace Z], [union W] registered for [A],
    the list of set operations has two branches, over [Z] and over [W];
    the branch over the table of [A] is not among them. *)
Lemma replace_keeps_base_counterexample :
  ∃ base a env',
    range_for_material_objtype_set_ops counter_aliases_get base "p"
      [("union", ex_cte "X"); ("union", ex_cte "Y");
       ("replace", ex_cte "Z"); ("union", ex_cte "W")]
      (after_alias counter_aliases_get ex_env_overlays (Some "A"))
    = Ok ([("union",
            path_branch "p" (RangeVar (ex_cte "Z") (mkAlias "Z~3" [])));
           ("union",
            path_branch "p" (RangeVar (ex_cte "W") (mkAlias "W~4" [])))],
          env')
    ∧ base = RangeVar
               (inl (Relation (mkRelation (Some "edgedb_test") "A_data"
                                (Some "p") None)))
               (mkAlias a [])
    ∧ range_for_material_objtype counter_aliases_get (ex_type "A") "p" true
        ex_env_overlays
      = Ok (RangeSubselect
              (set_operation
                 (path_branch "p" (RangeVar (ex_cte "Z") (mkAlias "Z~3" [])))
                 "union"
                 (path_branch "p" (RangeVar (ex_cte "W") (mkAlias "W~4" []))))
              (mkAlias "A~5" []) None,
            mkEnvironment ex_schema (rel_overlays ex_env_overlays) 6).
Proof.
  eexists _, "A~0", _. split; [|split]; [|reflexivity|].
  - vm_compute. reflexivity.
  - vm_compute. reflexivity.
Qed.

Lemma empty_composition_raises_IndexError_witness :
  objtype_get_is_virtual ex_schema (ex_type "E") = true
  ∧ objtype_children ex_schema (ex_type "E") = []
  ∧ range_from_queryset counter_aliases_get []
      (ObjectType_obj (ex_type "E")) ex_env
    = Raise IndexError
  ∧ range_for_objtype counter_aliases_get 1 (ex_type "E") "p" true ex_env
    = Raise IndexError.
Proof.
  split; [reflexivity|]. split; [reflexivity|].
  apply (empty_composition_raises_IndexError counter_aliases_get 0
           (ex_type "E") "p" true ex_env); reflexivity.
Defined.

(** On the empty list the combinator raises, but what it raises is not an
    [EmptyCompositionError]. *)
Lemma empty_composition_error_counterexample :
  ¬ ∃ e,
      range_from_queryset counter_aliases_get []
        (ObjectType_obj (ex_type "E")) ex_env
      = Raise e
      ∧ exception_name e = "EmptyCompositionError".
Proof.
  intros (e & Hrun & Hname). cbn in Hrun. injection Hrun as <-.
  discriminate Hname.
Qed.

Lemma range_for_ptrcls_source_keeps_branches_witness :
  objtype_getptr ex_schema (ex_type "Root") (mkName "test" "owner")
  = Some (ex_link "owner@Root")
  ∧ (ex_link "owner@Root" ∉ (∅ : gset Link))
  ∧ ∃ base branches env',
      range_for_ptrcls_source counter_aliases_get (mkName "test" "owner")
        ["std::source"; "std::target"] true ([], ∅) (ex_type "Root")
        ex_env_overlays
      = Ok (([] ++ (("union", base) :: branches),
             (∅ ∪ {[link_material_type ex_schema (ex_link "owner@Root")]})),
            env')
      ∧ storage_tables [("union", base)]
        = [link_table ex_schema
             (link_material_type ex_schema (ex_link "owner@Root"))]
      ∧ map fst branches
        = map fst [("union", ex_cte "X"); ("replace", ex_cte "Z")].
Proof.
  split; [reflexivity|]. split; [apply not_elem_of_empty|].
  apply (range_for_ptrcls_source_keeps_branches counter_aliases_get
           (mkName "test" "owner") ["std::source"; "std::target"] [] ∅
           (ex_type "Root") (ex_link "owner@Root")
           [("union", ex_cte "X"); ("replace", ex_cte "Z")]
           ex_env_overlays).
  - reflexivity.
  - apply not_elem_of_empty.
  - vm_compute. reflexivity.
Defined.

Lemma range_for_objtype_distinct_and_stamped_witness :
  objtype_resolvable ex_schema 2 (ex_type "V") = true
  ∧ ∃ rvar env',
      range_for_objtype counter_aliases_get 2 (ex_type "V") "p" true
        ex_env_overlays
      = Ok (rvar, env')
      ∧ BaseRelation_is_distinct (BaseRangeVar_query rvar) = Some true
      ∧ BaseRelation_path_id (BaseRangeVar_query rvar) = Some "p".
Proof.
  split; [vm_compute; reflexivity|].
  apply (range_for_objtype_distinct_and_stamped counter_aliases_get 2
           (ex_type "V") "p" true ex_env_overlays).
  vm_compute. reflexivity.
Defined.

(** The link [owner] is declared on [Root] and inherited by [Child1] and
    [Child2]: three sources are sifted through, and the range is the one
    table of the link, returned directly. *)
Example range_for_ptrcls_inherited_link :
  length (range_for_ptrcls_sources ex_schema (ex_link "owner@Root")) = 3
  ∧ range_for_ptrcls counter_aliases_get (ex_link "owner@Root") Outbound
      true ex_env
    = Ok (RangeVar
            (inl (Relation (mkRelation (Some "edgedb_test")
                              "owner@Root_link" None None)))
            (mkAlias "owner~0" []),
          mkEnvironment ex_schema ∅ 1).
Proof. split; vm_compute; reflexivity. Qed.

(** A reference that is not nullable, resolved with an explicit
    [nullable=True]: the result is nullable. *)
Lemma get_column_nullable_counterexample :
  get_column None (inr (mkColumnRef ["c"] (Some false) (Some false))) false
    (Some true)
  = Ok (mkColumnRef ["c"] (Some true) (Some false))
  ∧ ColumnRef_nullable (mkColumnRef ["c"] (Some true) (Some false))
    ≠ ColumnRef_nullable (mkColumnRef ["c"] (Some false) (Some false)).
Proof. split; [reflexivity|discriminate]. Qed.


Example get_rvar_var_named_pair :
  get_rvar_var (Some ex_rvar) (inr ex_tuple) true (Some true)
  = Ok (TupleVar
          [mkTupleElement "p.first"
             (inr (ColumnRef_var (mkColumnRef ["first"] (Some false) None)))
             (Some (ColumnRef_var
                      (mkColumnRef ["A~1"; "first"] (Some false) None)));
           mkTupleElement "p.second"
             (inr (ColumnRef_var (mkColumnRef ["second"] None None)))
             (Some (ColumnRef_var (mkColumnRef ["A~1"; "second"] None None)))]
          true).
Proof. reflexivity. Qed.

(** * Further properties *)

Section More.

Context {AliasGenerator : Type}.
Variable aliases_get :
  option string → AliasGenerator → string * AliasGenerator.

Implicit Types (env : @Environment AliasGenerator) (stype : Object).
Implicit Types (set_ops : list (string * BaseRelation)).

Local Abbreviation M := (@M AliasGenerator).

(** *** Loops *)

Lemma for_each_app {A B} (body : B → A → M B) xs ys acc env :
  for_each body (xs ++ ys) acc env
  = M_bind (for_each body xs acc) (for_each body ys) env.
Proof.
  revert acc env. induction xs as [|x xs IH]; intros acc env; [reflexivity|].
  unfold M_bind in *. cbn [app for_each]. unfold M_bind.
  destruct (body acc x env) as [[acc1 env1]|]; [|reflexivity]. apply IH.
Qed.

(** A loop that returns has run its body on every item; an invariant of
    the body holds at the end, and what the body shows of an item holds
    of all of them. *)
Lemma for_each_Ok_inv {A B} (body : B → A → M B)
    (J : B → Environment → Prop) (Q : A → Prop) :
  (∀ acc x env acc' env',
     J acc env → body acc x env = Ok (acc', env') → J acc' env' ∧ Q x) →
  ∀ xs acc env acc' env',
    J acc env → for_each body xs acc env = Ok (acc', env') →
    J acc' env' ∧ Forall Q xs.
Proof.
  intros Hbody xs. induction xs as [|x xs IH]; intros acc env acc' env' HJ.
  - cbn. intros [= <- <-]. by split.
  - cbn [for_each]. unfold M_bind.
    destruct (body acc x env) as [[acc1 env1]|] eqn:Hx; [|done].
    intros Hrun. destruct (Hbody _ _ _ _ _ HJ Hx) as [HJ1 HQ].
    destruct (IH _ _ _ _ HJ1 Hrun) as [HJ' HQs].
    split; [done|]. by constructor.
Qed.

(** A loop that raises stops at an item on which the body raises, from a
    state that the invariant of the body allows; no item before it has
    raised. *)
Lemma for_each_Raise_inv {A B} (body : B → A → M B)
    (J : B → Environment → Prop) :
  (∀ acc x env acc' env',
     J acc env → body acc x env = Ok (acc', env') → J acc' env') →
  ∀ xs acc env e,
    J acc env → for_each body xs acc env = Raise e →
    ∃ x acc1 env1,
      x ∈ xs ∧ J acc1 env1 ∧ body acc1 x env1 = Raise e.
Proof.
  intros Hbody xs. induction xs as [|x xs IH]; intros acc env e HJ; [done|].
  cbn [for_each]. unfold M_bind.
  destruct (body acc x env) as [[acc1 env1]|e'] eqn:Hx.
  - intros Hrun.
    destruct (IH _ _ _ (Hbody _ _ _ _ _ HJ Hx) Hrun)
      as (y & acc2 & env2 & Hy & HJ2 & Hraise).
    exists y, acc2, env2. split; [by right|done].
  - intros [= <-]. exists x, acc, env. split; [by left|done].
Qed.

(** A body that returns at least what another returns gives a loop that
    returns at least what the other loop returns. *)
Lemma for_each_mono {A B} (body body' : B → A → M B) :
  (∀ acc x env r, body acc x env = Ok r → body' acc x env = Ok r) →
  ∀ xs acc env r,
    for_each body xs acc env = Ok r → for_each body' xs acc env = Ok r.
Proof.
  intros Hbody xs. induction xs as [|x xs IH]; intros acc env r; [done|].
  cbn [for_each]. unfold M_bind.
  destruct (body acc x env) as [[acc1 env1]|] eqn:Hx; [|done].
  rewrite (Hbody _ _ _ _ Hx). apply IH.
Qed.

(** *** Overlay registration *)

Lemma add_rel_overlay_eq (stype : ObjectType) o (rel : OverlayRel) env :
  add_rel_overlay stype o rel env
  = Ok ((), mkEnvironment (schema env)
              (<[objtype_get_name (schema env) stype
                 := default [] (rel_overlays env
                                  !! objtype_get_name (schema env) stype)
                    ++ [(o, rel)]]> (rel_overlays env))
              (aliases env)).
Proof. done. Qed.

(** Property X1.  Registering a list of overlays for a type, one after
    the other, appends them to the list registered for the name of the
    type, in the order of registration; the lists of the other names, the
    schema and the alias generator are left as they were. *)
Theorem add_rel_overlay_in_order (stype : ObjectType)
    (entries : list (string * OverlayRel)) env :
  ∃ env',
    for_each (λ _ '(o, rel), add_rel_overlay stype o rel) entries () env
    = Ok ((), env')
    ∧ schema env' = schema env ∧ aliases env' = aliases env
    ∧ default [] (rel_overlays env' !! objtype_get_name (schema env) stype)
      = default [] (rel_overlays env !! objtype_get_name (schema env) stype)
        ++ entries
    ∧ ∀ n, n ≠ objtype_get_name (schema env) stype →
           rel_overlays env' !! n = rel_overlays env !! n.
Proof.
  revert env. induction entries as [|[o rel] entries IH]; intros env.
  - exists env. rewrite app_nil_r. done.
  - cbn [for_each]. unfold M_bind. rewrite add_rel_overlay_eq.
    match goal with
    | |- context [for_each _ entries () ?e] =>
        destruct (IH e) as (env' & -> & Hs & Ha & Hl & Hn)
    end.
    cbn [schema aliases rel_overlays] in *.
    exists env'. split; [done|]. split; [done|]. split; [done|]. split.
    + rewrite Hl, lookup_insert_eq. cbn. by rewrite <-app_assoc.
    + intros n Hne. rewrite (Hn n Hne). by apply lookup_insert_ne.
Qed.

(** *** Material object types *)

Lemma range_for_material_objtype_overlays_return pid overlays set_ops env :
  ∃ set_ops' env',
    for_each (range_for_material_objtype_overlay aliases_get pid) overlays
      set_ops env
    = Ok (set_ops', env')
    ∧ same_unit env env'.
Proof.
  apply (for_each_invariant
           (range_for_material_objtype_overlay aliases_get pid)
           (λ _ _ env', same_unit env env') (λ _, True))
    with (processed := []).
  - intros _ [o cte] acc env1 _ Hu.
    rewrite range_for_material_objtype_overlay_eq. cbn zeta.
    eexists _, _. split; [done|].
    eapply same_unit_trans; [done|]. apply same_unit_after_alias.
  - by apply Forall_true.
  - apply same_unit_refl.
Qed.

Lemma range_for_material_objtype_set_ops_reset rvar pid
    (pre : list (string * OverlayRel)) (Z : OverlayRel) post env :
  ∃ aZ env1,
    same_unit env env1
    ∧ range_for_material_objtype_set_ops aliases_get rvar pid
        (pre ++ ("replace", Z) :: post) env
      = for_each (range_for_material_objtype_overlay aliases_get pid) post
          [("union", path_branch pid (RangeVar Z (mkAlias aZ [])))] env1.
Proof.
  unfold range_for_material_objtype_set_ops. rewrite for_each_app.
  match goal with
  | |- context [for_each _ pre ?acc] =>
      destruct (range_for_material_objtype_overlays_return pid pre acc env)
        as (set_ops1 & env1 & Hrun & Hu)
  end.
  rewrite (M_bind_Ok _ _ _ _ _ Hrun). cbn [for_each].
  unfold M_bind. rewrite range_for_material_objtype_overlay_eq. cbn zeta.
  rewrite (bool_decide_eq_true_2 ("replace" = "replace") eq_refl).
  eexists _, _. split; [|done].
  eapply same_unit_trans; [done|]. apply same_unit_after_alias.
Qed.

Lemma range_for_material_objtype_replaced objtype pid
    (pre : list (string * OverlayRel)) (Z : OverlayRel) env :
  rel_overlays env
    !! objtype_get_name (schema env)
         (objtype_material_type (schema env) objtype)
  = Some (pre ++ [("replace", Z)]) →
  ∃ a env',
    range_for_material_objtype aliases_get objtype pid true env
    = Ok (RangeVar Z (mkAlias a []), env')
    ∧ same_unit env env'.
Proof.
  intros Hov.
  unfold range_for_material_objtype, M_bind at 1, get_env.
  destruct (get_backend_name _ _) as [table_schema_name table_name].
  unfold M_bind at 1, env_aliases_get.
  cbn [schema rel_overlays after_alias]. rewrite Hov.
  destruct (pre ++ [("replace", Z)]) as [|ov ovs] eqn:Hovs.
  { by apply app_eq_nil in Hovs as [_ ?]. }
  rewrite <-Hovs. unfold M_bind.
  match goal with
  | |- context [range_for_material_objtype_set_ops _ ?r ?p _ ?e] =>
      destruct (range_for_material_objtype_set_ops_reset
                  r p pre Z [] e) as (aZ & env1 & Hu & ->)
  end.
  cbn [for_each]. unfold M_ret. exists aZ, env1. split; [done|].
  eapply same_unit_trans; [|done]. apply same_unit_after_alias.
Qed.

(** Property X2.  In [range_for_material_objtype], whatever is
    registered before an entry [replace Z], and the branch of the type's
    own table, contribute no branch: the list of set operations is the
    one that the loop builds over the later entries from the single
    branch [union Z]. *)
Theorem range_for_material_objtype_set_ops_after_replace rvar pid
    (pre : list (string * OverlayRel)) (Z : OverlayRel) post env :
  ∃ aZ env1,
    same_unit env env1
    ∧ range_for_material_objtype_set_ops aliases_get rvar pid
        (pre ++ ("replace", Z) :: post) env
      = for_each (range_for_material_objtype_overlay aliases_get pid) post
          [("union", path_branch pid (RangeVar Z (mkAlias aZ [])))] env1.
Proof. apply range_for_material_objtype_set_ops_reset. Qed.

(** Property X3.  When the last overlay registered for a type is a
    [replace Z], the range of the type with its overlays is the range
    variable over [Z] itself: no subquery is built. *)
Theorem range_for_material_objtype_last_replace objtype pid
    (pre : list (string * OverlayRel)) (Z : OverlayRel) env :
  rel_overlays env
    !! objtype_get_name (schema env)
         (objtype_material_type (schema env) objtype)
  = Some (pre ++ [("replace", Z)]) →
  ∃ a env',
    range_for_material_objtype aliases_get objtype pid true env
    = Ok (RangeVar Z (mkAlias a []), env')
    ∧ same_unit env env'.
Proof. apply range_for_material_objtype_replaced. Qed.

(** Property X4.  [range_for_material_objtype] never raises, whatever
    is registered, and leaves the schema and the registry as they
    were. *)
Theorem range_for_material_objtype_total objtype pid include_overlays env :
  ∃ rvar env',
    range_for_material_objtype aliases_get objtype pid include_overlays env
    = Ok (rvar, env')
    ∧ same_unit env env'.
Proof. apply range_for_material_objtype_returns. Qed.

(** Property X5.  Without overlays to take into account (none requested,
    or none registered for the material type), the range of a type is
    the range variable over its own table, stamped with the path
    identifier, under one alias allocated from the name of the type; the
    table of a type of the module [schema] is looked up in [edgedbss]. *)
Theorem range_for_material_objtype_direct objtype pid include_overlays env :
  let s := schema env in
  let mt := objtype_material_type s objtype in
  let hint := Some (Name_name (objtype_get_name s mt)) in
  overlays_for env include_overlays (objtype_get_name s mt) = [] →
  range_for_material_objtype aliases_get objtype pid include_overlays env
  = Ok (RangeVar
          (inl (Relation
                  (mkRelation
                     (Some (if bool_decide
                                 (Name_module (objtype_get_name s mt)
                                  = "schema")
                            then "edgedbss"
                            else (get_backend_name s (ObjectType_obj mt)).1))
                     (get_backend_name s (ObjectType_obj mt)).2
                     (Some pid) None)))
          (mkAlias (aliases_get hint (aliases env)).1 []),
        after_alias aliases_get env hint).
Proof.
  cbn zeta. unfold overlays_for. intros Hov.
  unfold range_for_material_objtype, M_bind, get_env, env_aliases_get, M_ret.
  destruct (get_backend_name _ _) as [table_schema_name table_name].
  cbn [schema rel_overlays after_alias fst snd].
  destruct (rel_overlays env !! _) as [[|ov ovs]|]; [done| |done].
  by destruct include_overlays.
Qed.

(** *** Object types *)

Lemma range_from_queryset_same_unit set_ops stype env rvar env' :
  range_from_queryset aliases_get set_ops stype env = Ok (rvar, env') →
  same_unit env env'.
Proof.
  destruct set_ops as [|[o0 first] [|e rest]]; [done| |].
  - unfold range_from_queryset. cbn.
    destruct first as [|s]; [done|]. destruct (from_clause s); [done|].
    by intros [= _ <-].
  - rewrite range_from_queryset_many. cbn zeta. intros [= _ <-].
    apply same_unit_after_alias.
Qed.

(** What [range_for_objtype] returns, it returns on a schema that lets
    the recursion finish, and with the schema and the registry as they
    were. *)
Lemma range_for_objtype_Ok_inv depth objtype pid include_overlays env rvar
    env' :
  range_for_objtype aliases_get depth objtype pid include_overlays env
  = Ok (rvar, env') →
  same_unit env env'
  ∧ objtype_resolvable (schema env) depth objtype = true.
Proof.
  revert objtype env rvar env'.
  induction depth as [|depth IH]; intros objtype env rvar env'; [done|].
  cbn [objtype_resolvable range_for_objtype].
  unfold M_bind at 1. cbn [get_env]. unfold M_bind at 1.
  destruct (negb _).
  - destruct (range_for_material_objtype_returns aliases_get objtype pid
                include_overlays env) as (rvar0 & env0 & -> & Hu).
    unfold M_ret. by intros [= _ <-].
  - cbn zeta. unfold M_bind at 1.
    destruct (elements _) as [|c cs] eqn:Hcs; [done|].
    match goal with
    | |- context [for_each ?body ?xs ?acc env] =>
        destruct (for_each body xs acc env) as [[set_ops env1]|] eqn:Hloop;
          [|done];
        apply (for_each_Ok_inv body
                 (λ _ env1, same_unit env env1)
                 (λ c, objtype_resolvable (schema env) depth c = true))
          in Hloop as [Hu Hall]; [| |apply same_unit_refl]
    end.
    + destruct (range_from_queryset _ _ _ _) as [[rvar0 env2]|] eqn:Hq;
        [|done].
      unfold M_ret. intros [= _ <-].
      split.
      { eapply same_unit_trans; [done|].
        by eapply range_from_queryset_same_unit. }
      apply forallb_forall. intros x Hx%list_elem_of_In.
      by eapply Forall_forall in Hall.
    + intros acc x env2 acc' env3 Hu.
      unfold M_bind.
      destruct (range_for_objtype _ _ _ _ _ _) as [[c_rvar env4]|] eqn:Hc;
        [|done].
      unfold M_ret. intros [= _ <-].
      apply IH in Hc as [Hu' Hres]. rewrite (proj1 Hu) in Hres.
      split; [by eapply same_unit_trans|done].
Qed.

(** Property X6.  [range_for_objtype] returns a range exactly when the
    schema lets the recursion finish within the depth allowed: every
    virtual type that is reached has a child. *)
Theorem range_for_objtype_returns_iff depth objtype pid include_overlays env :
  (∃ rvar env',
     range_for_objtype aliases_get depth objtype pid include_overlays env
     = Ok (rvar, env'))
  ↔ objtype_resolvable (schema env) depth objtype = true.
Proof.
  split.
  - intros (rvar & env' & Hrun).
    by apply range_for_objtype_Ok_inv in Hrun as [_ ?].
  - intros Hres.
    destruct (range_for_objtype_returns aliases_get depth objtype pid
                include_overlays env Hres) as (rvar & env' & Hrun & _).
    by exists rvar, env'.
Qed.

(** Property X8.  When [range_for_objtype] raises, it raises
    [IndexError] (a virtual type without children) or [RecursionError]
    (the depth allowed is exhausted), never anything else. *)
Theorem range_for_objtype_raises depth objtype pid include_overlays env e :
  range_for_objtype aliases_get depth objtype pid include_overlays env
  = Raise e →
  e = IndexError ∨ e = RecursionError.
Proof.
  revert objtype env.
  induction depth as [|depth IH]; intros objtype env.
  { cbn. intros [= <-]. by right. }
  cbn [range_for_objtype].
  unfold M_bind at 1. cbn [get_env]. unfold M_bind at 1.
  destruct (negb _).
  - destruct (range_for_material_objtype_returns aliases_get objtype pid
                include_overlays env) as (rvar0 & env0 & -> & Hu).
    done.
  - cbn zeta. unfold M_bind at 1.
    match goal with
    | |- context [for_each ?body ?xs ?a0 env] =>
        destruct (for_each body xs a0 env) as [[set_ops env1]|e'] eqn:Hloop;
          [apply (for_each_Ok_inv body
                    (λ acc _, Forall single_source_branch acc)
                    (λ _, True)) in Hloop as [Hall _]
          |apply (for_each_Raise_inv body (λ _ _, True)) in Hloop
             as (x & acc1 & env2 & _ & _ & Hx)]
    end.
    + destruct set_ops as [|b set_ops].
      { cbn. intros [= <-]. by left. }
      destruct (range_from_queryset_returns aliases_get (b :: set_ops)
                  (ObjectType_obj objtype) env1) as (r & env2 & -> & _);
        done.
    + intros acc x env2 acc' env3 Hall. unfold M_bind.
      destruct (range_for_objtype _ _ _ _ _ _) as [[c_rvar env4]|]; [|done].
      unfold M_ret. intros [= <- _]. split; [|done].
      apply Forall_app. split; [done|]. repeat constructor.
      apply (single_source_path_branch _ pid c_rvar).
    + done.
    + intros [= <-]. revert Hx. unfold M_bind.
      destruct (range_for_objtype _ _ _ _ _ _) as [[c_rvar env4]|e''] eqn:Hc;
        [done|].
      intros [= <-]. by eapply IH.
    + done.
    + done.
Qed.

Lemma range_for_objtype_more_depth_step depth objtype pid include_overlays
    env r :
  range_for_objtype aliases_get depth objtype pid include_overlays env
  = Ok r →
  range_for_objtype aliases_get (S depth) objtype pid include_overlays env
  = Ok r.
Proof.
  revert objtype env r.
  induction depth as [|depth IH]; intros objtype env r; [done|].
  intros Hrun. cbn [range_for_objtype] in Hrun.
  remember (S depth) as depth1 eqn:Hdepth1.
  cbn [range_for_objtype]. subst depth1.
  revert Hrun. unfold M_bind, get_env.
  destruct (negb _); [done|]. cbn zeta.
  match goal with
  | |- context [for_each ?body ?xs ?a0 env] =>
      destruct (for_each body xs a0 env) as [[set_ops env1]|] eqn:Hloop;
        [|done]
  end.
  eapply for_each_mono in Hloop; [rewrite Hloop; done|].
  intros acc x env2 r'. cbn beta.
  destruct (range_for_objtype _ depth _ _ _ _) as [[c_rvar env3]|] eqn:Hc;
    [|done].
  by rewrite (IH _ _ _ Hc).
Qed.

(** Property X9.  What [range_for_objtype] returns within some depth,
    it returns within every larger depth. *)
Theorem range_for_objtype_more_depth (depth depth' : nat) objtype pid
    include_overlays env r :
  (depth ≤ depth')%nat →
  range_for_objtype aliases_get depth objtype pid include_overlays env
  = Ok r →
  range_for_objtype aliases_get depth' objtype pid include_overlays env
  = Ok r.
Proof.
  induction 1 as [|depth' _ IH]; [done|]. intros Hrun.
  by apply range_for_objtype_more_depth_step, IH.
Qed.

Lemma set_query_path_info_idemp d p rvar :
  BaseRangeVar_set_query_path_info d p
    (BaseRangeVar_set_query_path_info d p rvar)
  = BaseRangeVar_set_query_path_info d p rvar.
Proof.
  destruct rvar as [[[r|s]|cte] a|[r|s] a l]; cbn; try done.
  by destruct (cte_query cte).
Qed.

Lemma range_for_objtype_result_marked depth objtype pid include_overlays env
    rvar env' :
  range_for_objtype aliases_get depth objtype pid include_overlays env
  = Ok (rvar, env') →
  BaseRangeVar_set_query_path_info true pid rvar = rvar.
Proof.
  destruct depth as [|depth]; [done|].
  cbn [range_for_objtype]. unfold M_bind at 1. cbn [get_env].
  unfold M_bind at 1.
  match goal with |- context [match ?m env with _ => _ end] =>
    destruct (m env) as [[rvar0 env0]|] end; [|done].
  unfold M_ret. intros [= <- _]. apply set_query_path_info_idemp.
Qed.

(** Property X10.  The range of a virtual type whose children are one
    type, however often it is listed, is the range of that child: the
    same range variable, with no subquery around it, or the same
    exception. *)
Theorem range_for_objtype_single_child depth objtype child pid
    include_overlays env :
  objtype_get_is_virtual (schema env) objtype = true →
  list_to_set (objtype_children (schema env) objtype)
  = ({[child]} : gset ObjectType) →
  range_for_objtype aliases_get (S depth) objtype pid include_overlays env
  = range_for_objtype aliases_get depth child pid include_overlays env.
Proof.
  intros Hv Hc. cbn [range_for_objtype].
  unfold M_bind at 1. cbn [get_env]. unfold M_bind at 1.
  rewrite Hv. cbn [negb]. cbn zeta. rewrite Hc, elements_singleton.
  cbn [for_each]. unfold M_bind.
  destruct (range_for_objtype _ depth _ _ _ _) as [[c_rvar env1]|] eqn:Hrun;
    [|done].
  change (M_ret (BaseRangeVar_set_query_path_info true pid c_rvar) env1
          = Ok (c_rvar, env1)).
  unfold M_ret.
  by rewrite (range_for_objtype_result_marked _ _ _ _ _ _ _ Hrun).
Qed.

(** *** Pointers *)

Lemma fold_set_target_list_eq (f : string → ResTarget) cols (q : Query) :
  fold_left (λ (q : Query) c, set_target_list q (target_list q ++ [f c]))
    cols q
  = set_target_list q (target_list q ++ map f cols).
Proof.
  revert q. induction cols as [|c cols IH]; intros q.
  - cbn. rewrite app_nil_r. by destruct q.
  - cbn [fold_left map]. rewrite IH. unfold set_target_list. cbn.
    by rewrite <-app_assoc.
Qed.

(** The overlay loop of a pointer range, branch by branch. *)
Lemma range_for_ptrcls_overlays_branches cols
    (overlays : list (string * OverlayRel)) set_ops env :
  ∃ branches env',
    range_for_ptrcls_overlays aliases_get cols overlays set_ops env
    = Ok (set_ops ++ branches, env')
    ∧ same_unit env env'
    ∧ Forall2
        (λ (ov : string * OverlayRel) (b : string * BaseRelation),
           b.1 = ov.1
           ∧ ∃ a, b.2 = ptrcls_overlay_branch cols
                          (RangeVar ov.2 (mkAlias a [])))
        overlays branches.
Proof.
  unfold range_for_ptrcls_overlays.
  revert set_ops env.
  induction overlays as [|[o cte] overlays IH]; intros set_ops env.
  - exists [], env. rewrite app_nil_r. split; [done|]. split; [done|].
    constructor.
  - destruct (IH (set_ops
                  ++ [(o, ptrcls_overlay_branch cols
                            (RangeVar cte
                               (mkAlias
                                  (aliases_get (OverlayRel_name cte)
                                     (aliases env)).1 [])))])
               (after_alias aliases_get env (OverlayRel_name cte)))
      as (branches & env' & Hrun & Hu & Hall).
    eexists (_ :: branches), env'. split.
    { rewrite <-app_assoc in Hrun. exact Hrun. }
    split.
    { eapply same_unit_trans; [|done]. apply same_unit_after_alias. }
    constructor; [|done]. split; [done|]. by eexists.
Qed.

(** One turn of the loop over the sources, for a source whose storage
    owner is new. *)
Lemma range_for_ptrcls_source_new linkname cols include_overlays set_ops
    (ptrclses : gset Link) source ptr env :
  let s := schema env in
  let p := link_material_type s ptr in
  let hint := Some (Name_name (get_shortname s (Link_obj p))) in
  let table := link_table_rvar s p (aliases_get hint (aliases env)).1 in
  objtype_getptr s source linkname = Some ptr →
  p ∉ ptrclses →
  ∃ branches env',
    range_for_ptrcls_source aliases_get linkname cols include_overlays
      (set_ops, ptrclses) source env
    = Ok ((set_ops ++ ("union", ptrcls_storage_branch cols table) :: branches,
           ptrclses ∪ {[p]}), env')
    ∧ same_unit env env'
    ∧ (branches = [] → env' = after_alias aliases_get env hint)
    ∧ Forall2
        (λ (ov : string * OverlayRel) (b : string * BaseRelation),
           b.1 = ov.1
           ∧ ∃ a, b.2 = ptrcls_overlay_branch cols
                          (RangeVar ov.2 (mkAlias a [])))
        (overlays_for env include_overlays (get_shortname s (Link_obj p)))
        branches.
Proof.
  cbn zeta. intros Hptr Hnew.
  unfold range_for_ptrcls_source, M_bind at 1, get_env. rewrite Hptr.
  cbn zeta. destruct (decide _) as [|_]; [done|].
  unfold M_bind at 1, table_from_ptrcls, M_bind, get_env, env_aliases_get,
    M_ret.
  unfold link_table_rvar, link_table.
  destruct (get_backend_name _ _) as [table_schema_name table_name].
  cbn [schema rel_overlays after_alias fst snd].
  rewrite (fold_set_target_list_eq
             (λ colname, mkResTarget (Some colname) (mkColumnRef [_; colname]
                                                       None None))).
  cbn [BaseRangeVar_alias aliasname].
  match goal with
  | |- context [set_ops ++ [("union", ?b)]] =>
      change b with
        (ptrcls_storage_branch cols
           (RangeVar
              (inl (Relation
                      (mkRelation
                         (Some (if bool_decide
                                     (Name_module
                                        (get_shortname (schema env)
                                           (Link_obj
                                              (link_material_type
                                                 (schema env) ptr)))
                                      = "schema")
                                then "edgedbss" else table_schema_name))
                         table_name None None)))
              (mkAlias
                 (aliases_get
                    (Some (Name_name
                             (get_shortname (schema env)
                                (Link_obj
                                   (link_material_type (schema env) ptr)))))
                    (aliases env)).1 [])))
  end.
  unfold overlays_for.
  destruct (rel_overlays env !! _) as [[|ov ovs]|] eqn:Hov;
    [| destruct include_overlays |].
  - exists [], (after_alias aliases_get env
                  (Some (Name_name
                           (get_shortname (schema env)
                              (Link_obj
                                 (link_material_type (schema env) ptr)))))).
    split; [done|]. split; [apply same_unit_after_alias|]. split; [done|].
    destruct include_overlays; constructor.
  - match goal with
    | |- context [range_for_ptrcls_overlays _ ?c ?o ?l ?e] =>
        destruct (range_for_ptrcls_overlays_branches c o l e)
          as (branches & env1 & -> & Hu & Hall)
    end.
    exists branches, env1. rewrite <-app_assoc. split; [done|]. split.
    { eapply same_unit_trans; [|done]. apply same_unit_after_alias. }
    split; [|done]. intros ->. by apply Forall2_nil_inv_r in Hall.
  - eexists [], _. split; [done|]. split; [apply same_unit_after_alias|].
    split; [done|]. constructor.
  - eexists [], _. split; [done|]. split; [apply same_unit_after_alias|].
    split; [done|]. destruct include_overlays; constructor.
Qed.

Lemma range_for_ptrcls_source_skip linkname cols include_overlays set_ops
    (ptrclses : gset Link) source env :
  match objtype_getptr (schema env) source linkname with
  | Some ptr => link_material_type (schema env) ptr ∈ ptrclses
  | None => True
  end →
  range_for_ptrcls_source aliases_get linkname cols include_overlays
    (set_ops, ptrclses) source env
  = Ok ((set_ops, ptrclses), env).
Proof.
  unfold range_for_ptrcls_source, M_bind at 1, get_env.
  destruct (objtype_getptr _ _ _) as [ptr|]; [|done].
  cbn zeta. by destruct (decide _).
Qed.

Lemma target_columns_storage_branch cols table :
  target_columns (ptrcls_storage_branch cols table) = cols.
Proof.
  unfold target_columns, ptrcls_storage_branch. cbn.
  induction cols as [|c cols IH]; [done|]. cbn. by rewrite IH.
Qed.

Lemma target_columns_overlay_branch cols rvar :
  target_columns (ptrcls_overlay_branch cols rvar) = cols.
Proof.
  unfold target_columns, ptrcls_overlay_branch. cbn.
  induction cols as [|c cols IH]; [done|]. cbn. by rewrite IH.
Qed.

Lemma ptrcls_overlay_branches_ok cols (overlays : list (string * OverlayRel))
    (branches : list (string * BaseRelation)) :
  Forall2
    (λ (ov : string * OverlayRel) (b : string * BaseRelation),
       b.1 = ov.1
       ∧ ∃ a, b.2 = ptrcls_overlay_branch cols (RangeVar ov.2 (mkAlias a [])))
    overlays branches →
  Forall (λ b, target_columns b.2 = cols ∧ single_source_branch b) branches.
Proof.
  induction 1 as [|ov [o b] ovs bs (_ & a & Hb) _ IH]; constructor; [|done].
  cbn in Hb. subst b. split.
  - apply target_columns_overlay_branch.
  - by eexists _, _.
Qed.

(** The loop over the sources, branch by branch. *)
Lemma range_for_ptrcls_set_ops_branches ptrcls include_overlays env :
  let s := schema env in
  let cols := ["std::source"; get_pointer_storage_column_name s ptrcls] in
  ∃ set_ops ptrclses env',
    range_for_ptrcls_set_ops aliases_get ptrcls include_overlays env
    = Ok ((set_ops, ptrclses), env')
    ∧ same_unit env env'
    ∧ ptrclses = storage_owners s (get_shortname s (Link_obj ptrcls))
                   (range_for_ptrcls_sources s ptrcls)
    ∧ (ptrclses = ∅ ↔ set_ops = [])
    ∧ Forall (λ b, target_columns b.2 = cols ∧ single_source_branch b)
        set_ops
    ∧ (include_overlays = false →
       Forall (λ b, b.1 = "union") set_ops
       ∧ length set_ops = size ptrclses).
Proof.
  cbn zeta. unfold range_for_ptrcls_set_ops, M_bind at 1, get_env.
  set (linkname := get_shortname (schema env) (Link_obj ptrcls)).
  set (cols := [_; _]).
  destruct (for_each_invariant
              (range_for_ptrcls_source aliases_get linkname cols
                 include_overlays)
              (λ processed acc env',
                 same_unit env env'
                 ∧ acc.2 = storage_owners (schema env) linkname processed
                 ∧ (acc.2 = ∅ ↔ acc.1 = [])
                 ∧ Forall (λ b, target_columns b.2 = cols
                                ∧ single_source_branch b) acc.1
                 ∧ (include_overlays = false →
                    Forall (λ b, b.1 = "union") acc.1
                    ∧ length acc.1 = size acc.2))
              (λ _, True))
    with (xs := range_for_ptrcls_sources (schema env) ptrcls)
         (processed := @nil ObjectType)
         (acc := (@nil (string * BaseRelation), (∅ : gset Link)))
         (env := env)
    as ([set_ops ptrclses] & env' & Hrun & Hu & Hseen & Hnil & Hall & Hno).
  - intros processed source [set_ops ptrclses] env1 _.
    cbn [fst snd]. intros (Hu & Hseen & Hnil & Hall & Hno).
    rewrite storage_owners_snoc, <-Hseen.
    destruct Hu as [Hschema Hreg].
    destruct (objtype_getptr (schema env) source linkname) as [ptr|] eqn:Hptr.
    + destruct (decide (link_material_type (schema env) ptr ∈ ptrclses))
        as [Hin|Hnew].
      * exists (set_ops, ptrclses), env1. split.
        { apply range_for_ptrcls_source_skip. by rewrite Hschema, Hptr. }
        cbn [fst snd]. repeat (split; [done|]).
        split; [set_solver|done].
      * rewrite <-Hschema in Hptr, Hnew.
        destruct (range_for_ptrcls_source_new linkname cols include_overlays
                    set_ops ptrclses source ptr env1 Hptr Hnew)
          as (branches & env2 & Hrun & Hu' & _ & Hbr).
        rewrite Hschema in Hrun, Hnew.
        eexists (_, _), env2. split; [exact Hrun|]. cbn [fst snd].
        split; [by eapply same_unit_trans|]. split; [done|]. split.
        { split; [set_solver|]. intros E. by apply app_eq_nil in E as [_ ?]. }
        split.
        { apply Forall_app. split; [done|]. constructor.
          - split; [apply target_columns_storage_branch|]. by eexists _, _.
          - by eapply ptrcls_overlay_branches_ok. }
        intros ->. destruct (Hno eq_refl) as [Hops Hlen].
        unfold overlays_for in Hbr. apply Forall2_nil_inv_l in Hbr as ->.
        split.
        { apply Forall_app. split; [done|]. by repeat constructor. }
        rewrite length_app, Hlen, size_union, size_singleton by set_solver.
        done.
    + exists (set_ops, ptrclses), env1. split.
      { apply range_for_ptrcls_source_skip. by rewrite Hschema, Hptr. }
      cbn [fst snd]. repeat (split; [done|]).
      split; [set_solver|done].
  - by apply Forall_true.
  - cbn [fst snd]. split; [done|]. split; [done|]. split; [done|].
    split; [constructor|]. intros _. split; [constructor|done].
  - cbn [fst snd app] in *. by exists set_ops, ptrclses, env'.
Qed.

(** Property X11.  Every branch of a pointer range, over a table or over
    an overlay, selects exactly two columns, [std::source] and the target
    column of the link, in this order. *)
Theorem range_for_ptrcls_two_columns ptrcls include_overlays env :
  ∃ set_ops ptrclses env',
    range_for_ptrcls_set_ops aliases_get ptrcls include_overlays env
    = Ok ((set_ops, ptrclses), env')
    ∧ Forall
        (λ b, target_columns b.2
              = ["std::source";
                 get_pointer_storage_column_name (schema env) ptrcls])
        set_ops.
Proof.
  destruct (range_for_ptrcls_set_ops_branches ptrcls include_overlays env)
    as (set_ops & ptrclses & env' & Hrun & _ & _ & _ & Hall & _).
  exists set_ops, ptrclses, env'. split; [done|].
  eapply Forall_impl; [done|]. by intros b [? _].
Qed.

(** Property X12.  [range_for_ptrcls] raises [IndexError] when no source
    of the hierarchy has the link; otherwise it returns, with the schema
    and the registry as they were. *)
Theorem range_for_ptrcls_returns_or_IndexError ptrcls direction
    include_overlays env :
  let s := schema env in
  if decide (storage_owners s (get_shortname s (Link_obj ptrcls))
               (range_for_ptrcls_sources s ptrcls) = ∅)
  then range_for_ptrcls aliases_get ptrcls direction include_overlays env
       = Raise IndexError
  else ∃ rvar env',
         range_for_ptrcls aliases_get ptrcls direction include_overlays env
         = Ok (rvar, env')
         ∧ schema env' = schema env
         ∧ rel_overlays env' = rel_overlays env.
Proof.
  cbn zeta. unfold range_for_ptrcls.
  destruct (range_for_ptrcls_set_ops_branches ptrcls include_overlays env)
    as (set_ops & ptrclses & env1 & Hrun & Hu & <- & Hnil & Hall & _).
  rewrite (M_bind_Ok _ _ _ _ _ Hrun).
  destruct (decide (ptrclses = ∅)) as [Hempty|Hsome].
  - apply Hnil in Hempty as ->. done.
  - destruct (range_from_queryset_returns aliases_get set_ops
                (Link_obj ptrcls) env1) as (rvar & env2 & Hq & Hu').
    + intros E. by apply Hsome, Hnil.
    + eapply Forall_impl; [done|]. by intros b [_ ?].
    + exists rvar, env2. split; [done|]. by eapply same_unit_trans.
Qed.

(** Property X14.  When the sources that have the link share one storage
    owner, and there is no overlay to take into account for it, the range
    of the link is the range variable over the table of that owner, under
    one alias allocated from the short name of the owner. *)
Theorem range_for_ptrcls_single_storage ptrcls direction include_overlays
    env p :
  let s := schema env in
  let hint := Some (Name_name (get_shortname s (Link_obj p))) in
  storage_owners s (get_shortname s (Link_obj ptrcls))
    (range_for_ptrcls_sources s ptrcls) = {[p]} →
  overlays_for env include_overlays (get_shortname s (Link_obj p)) = [] →
  range_for_ptrcls aliases_get ptrcls direction include_overlays env
  = Ok (link_table_rvar s p (aliases_get hint (aliases env)).1,
        after_alias aliases_get env hint).
Proof.
  cbn zeta. intros Hown Hov.
  unfold range_for_ptrcls, range_for_ptrcls_set_ops, M_bind at 1 2, get_env.
  set (linkname := get_shortname (schema env) (Link_obj ptrcls)) in *.
  set (cols := [_; _]).
  set (hint := Some (Name_name (get_shortname (schema env) (Link_obj p)))).
  set (table := link_table_rvar (schema env) p
                  (aliases_get hint (aliases env)).1).
  assert (Forall
            (λ source,
               match objtype_getptr (schema env) source linkname with
               | Some ptr => link_material_type (schema env) ptr = p
               | None => True
               end)
            (range_for_ptrcls_sources (schema env) ptrcls)) as HP.
  { apply Forall_forall. intros source Hsource.
    destruct (objtype_getptr _ _ _) as [ptr|] eqn:Hptr; [|done].
    apply (elem_of_singleton (C := gset Link)). rewrite <-Hown.
    apply elem_of_list_to_set, list_elem_of_omap.
    exists source. split; [done|]. by rewrite Hptr. }
  set (I := λ (processed : list ObjectType)
              (acc : list (string * BaseRelation) * gset Link)
              (env' : @Environment AliasGenerator),
              acc.2 = storage_owners (schema env) linkname processed
              ∧ ((acc = ([], ∅) ∧ env' = env)
                 ∨ (acc = ([("union", ptrcls_storage_branch cols table)],
                           {[p]})
                    ∧ env' = after_alias aliases_get env hint))).
  assert (∀ processed x acc env1,
            match objtype_getptr (schema env) x linkname with
            | Some ptr => link_material_type (schema env) ptr = p
            | None => True
            end →
            I processed acc env1 →
            ∃ acc' env',
              range_for_ptrcls_source aliases_get linkname cols
                include_overlays acc x env1 = Ok (acc', env')
              ∧ I (processed ++ [x]) acc' env') as Hbody.
  { intros processed x acc env1 HPx [Hseen [[-> ->]|[-> ->]]];
      unfold I; cbn [fst snd] in *.
    - destruct (objtype_getptr (schema env) x linkname) as [ptr|] eqn:Hptr.
      + subst p.
        destruct (range_for_ptrcls_source_new linkname cols
                    include_overlays [] ∅ x ptr env Hptr)
          as (branches & env2 & Hrun & _ & Henv & Hbr); [set_solver|].
        rewrite Hov in Hbr. apply Forall2_nil_inv_l in Hbr as ->.
        rewrite (Henv eq_refl) in Hrun.
        eexists (_, _), _. split; [exact Hrun|]. cbn [fst snd app].
        rewrite storage_owners_snoc, Hptr, <-Hseen. split; [done|]. right.
        split; [|done]. f_equal. set_solver.
      + exists ([], ∅), env. split.
        { apply range_for_ptrcls_source_skip. by rewrite Hptr. }
        cbn [fst snd]. rewrite storage_owners_snoc, Hptr, <-Hseen.
        split; [set_solver|by left].
    - eexists (_, _), _. split.
      { apply range_for_ptrcls_source_skip. cbn [schema after_alias].
        destruct (objtype_getptr _ _ _); [|done]. set_solver. }
      cbn [fst snd]. rewrite storage_owners_snoc, <-Hseen.
      split; [|by right].
      destruct (objtype_getptr _ _ _); set_solver. }
  destruct (for_each_invariant _ I _ Hbody
              (range_for_ptrcls_sources (schema env) ptrcls)
              [] ([], ∅) env HP)
    as (acc & env' & Hrun & Hseen & Hcase).
  { by split; [|left]. }
  rewrite Hrun. cbn [app] in Hseen. rewrite Hown in Hseen.
  destruct Hcase as [[-> ->]|[-> ->]].
  - cbn in Hseen. set_solver.
  - done.
Qed.

(** *** Set combinator *)

Lemma unchain_left_deep_chain first rest :
  unchain (length rest) (left_deep_chain first rest) = Some (first, rest).
Proof.
  induction rest as [|[o rel] rest IH] using rev_ind; [done|].
  rewrite length_app, Nat.add_1_r, left_deep_chain_snoc.
  cbn. by rewrite IH.
Qed.

(** Property X15.  The query that the set combinator composes from more
    than one entry can be read back: down its left arguments it gives the
    relation of the first entry and then, in the order of the list, the
    operation and the relation of every later entry, each node with
    [all=True]. *)
Theorem range_from_queryset_unchain o0 first e rest stype env :
  ∃ q a env',
    range_from_queryset aliases_get ((o0, first) :: e :: rest) stype env
    = Ok (RangeSubselect q a None, env')
    ∧ unchain (S (length rest)) q = Some (first, e :: rest).
Proof.
  rewrite range_from_queryset_many. cbn zeta. eexists _, _, _.
  split; [done|]. apply (unchain_left_deep_chain first (e :: rest)).
Qed.

(** Property X16.  The set combinator never uses the operation of the
    first entry. *)
Theorem range_from_queryset_first_op o o' rel rest stype env :
  range_from_queryset aliases_get ((o, rel) :: rest) stype env
  = range_from_queryset aliases_get ((o', rel) :: rest) stype env.
Proof.
  destruct rest as [|e rest]; [done|].
  by rewrite !range_from_queryset_many.
Qed.

(** *** Wrappers *)

(** Property X18.  Wrapping a query with [cte_for_query], registering
    the CTE as a [replace] overlay of a concrete type and asking for the
    range of the type gives the range variable over that CTE, whose query
    is marked distinct and stamped with the path identifier, whatever was
    registered for the type before. *)
Theorem replace_overlay_end_to_end depth (objtype : ObjectType) pid
    (q : Query) env :
  objtype_get_is_virtual (schema env) objtype = false →
  objtype_get_name (schema env) (objtype_material_type (schema env) objtype)
  = objtype_get_name (schema env) objtype →
  ∃ cte env1 env2 a env3,
    cte_for_query aliases_get q env = Ok (cte, env1)
    ∧ cte_query cte = SelectStmt q
    ∧ add_rel_overlay objtype "replace" (inr cte) env1 = Ok ((), env2)
    ∧ range_for_objtype aliases_get (S depth) objtype pid true env2
      = Ok (RangeVar
              (inr (mkCommonTableExpr (cte_name cte)
                      (SelectStmt (set_path_info q (Some true) (Some pid)))
                      (cte_alias cte)))
              (mkAlias a []),
            env3).
Proof.
  intros Hv Hname.
  set (key := objtype_get_name (schema env) objtype) in *.
  set (cte := mkCommonTableExpr None (SelectStmt q)
                (Some (mkAlias (aliases_get (name q) (aliases env)).1 []))).
  set (env1 := after_alias aliases_get env (name q)).
  set (pre := default [] (rel_overlays env !! key)).
  set (env2 := mkEnvironment (schema env)
                 (<[key := pre ++ [("replace", inr cte)]]> (rel_overlays env))
                 (aliases env1)).
  destruct (range_for_material_objtype_replaced objtype pid pre (inr cte)
              env2) as (a & env3 & Hrun & _).
  { subst env2. cbn [schema rel_overlays]. rewrite Hname.
    apply lookup_insert_eq. }
  exists cte, env1, env2, a, env3.
  split; [reflexivity|]. split; [reflexivity|]. split; [reflexivity|].
  cbn [range_for_objtype]. unfold M_bind at 1, get_env, M_bind.
  change (schema env2) with (schema env). rewrite Hv. cbn [negb].
  rewrite Hrun. reflexivity.
Qed.

End More.

(** *** The range of a pointer *)

Section PointerRange.

Context {AliasGenerator : Type}.
Variable aliases_get :
  option string → AliasGenerator → string * AliasGenerator.

Implicit Types (env : @Environment AliasGenerator).
Implicit Types (set_ops : list (string * BaseRelation)).

Lemma storage_tables_branches set_ops :
  storage_tables set_ops = omap branch_storage_table (map snd set_ops).
Proof.
  induction set_ops as [|[o b] set_ops IH]; [done|].
  unfold storage_tables in *. cbn. rewrite IH. done.
Qed.

Lemma chain_branches_left_deep_chain first rest :
  chain_branches first = [first] →
  chain_branches (left_deep_chain first rest) = first :: map snd rest.
Proof.
  intros Hfirst.
  induction rest as [|[o rel] rest IH] using rev_ind; [done|].
  rewrite left_deep_chain_snoc, map_app. cbn. by rewrite IH.
Qed.

Lemma chain_branches_pointer_branch s rel :
  pointer_branch s rel → chain_branches rel = [rel].
Proof. by intros [(cols & p & a & ->)|(cols & rvar & ->)]. Qed.

(** The loop over the sources builds branches of the two kinds only, and
    the first branch is over a storage table. *)
Lemma range_for_ptrcls_set_ops_shapes ptrcls include_overlays env :
  ∃ set_ops ptrclses env',
    range_for_ptrcls_set_ops aliases_get ptrcls include_overlays env
    = Ok ((set_ops, ptrclses), env')
    ∧ Forall (λ b, pointer_branch (schema env) b.2) set_ops
    ∧ match set_ops with
      | b :: _ =>
          ∃ cols p a,
            b.2 = ptrcls_storage_branch cols (link_table_rvar (schema env) p a)
      | [] => True
      end.
Proof.
  unfold range_for_ptrcls_set_ops, M_bind at 1, get_env.
  set (linkname := get_shortname (schema env) (Link_obj ptrcls)).
  set (cols := [_; _]).
  destruct (for_each_invariant
              (range_for_ptrcls_source aliases_get linkname cols
                 include_overlays)
              (λ _ acc env',
                 same_unit env env'
                 ∧ Forall (λ b, pointer_branch (schema env) b.2) acc.1
                 ∧ match acc.1 with
                   | b :: _ =>
                       ∃ cols p a,
                         b.2 = ptrcls_storage_branch cols
                                 (link_table_rvar (schema env) p a)
                   | [] => True
                   end)
              (λ _, True))
    with (xs := range_for_ptrcls_sources (schema env) ptrcls)
         (processed := @nil ObjectType)
         (acc := (@nil (string * BaseRelation), (∅ : gset Link)))
         (env := env)
    as ([set_ops ptrclses] & env' & Hrun & _ & Hall & Hhead).
  - intros processed source [set_ops ptrclses] env1 _.
    cbn [fst snd]. intros (Hu & Hall & Hhead).
    destruct (objtype_getptr (schema env1) source linkname) as [ptr|]
      eqn:Hptr.
    + destruct (decide (link_material_type (schema env1) ptr ∈ ptrclses))
        as [Hin|Hnew].
      * exists (set_ops, ptrclses), env1. split.
        { apply range_for_ptrcls_source_skip. by rewrite Hptr. }
        done.
      * destruct (range_for_ptrcls_source_new aliases_get linkname cols
                    include_overlays set_ops ptrclses source ptr env1
                    Hptr Hnew)
          as (branches & env2 & Hrun & Hu' & _ & Hbr).
        rewrite (proj1 Hu) in Hrun.
        eexists (_, _), env2. split; [exact Hrun|]. cbn [fst snd].
        split; [by eapply same_unit_trans|]. split.
        { apply Forall_app. split; [done|]. constructor.
          - left. by eexists _, _, _.
          - clear -Hbr. induction Hbr as [|ov [o b] ovs bs (_ & a & Hb) _ IH];
              constructor; [|done].
            cbn in Hb. subst b. right. by eexists _, _. }
        destruct set_ops as [|b set_ops]; [|done].
        cbn. by eexists _, _, _.
    + exists (set_ops, ptrclses), env1. split.
      { apply range_for_ptrcls_source_skip. by rewrite Hptr. }
      done.
  - by apply Forall_true.
  - cbn. split; [done|]. split; [constructor|done].
  - by exists set_ops, ptrclses, env'.
Qed.

(** Claim C6.  The links that the loop of [range_for_ptrcls] visits are
    the storage owners of the sources that have the link; the storage
    branches of its list are the tables of these owners, one branch for
    each owner.  The range that [range_for_ptrcls] returns ranges over
    exactly these tables, each once: a source whose storage owner was
    already visited adds nothing.  When no source has the link the
    function raises [IndexError]. *)
Theorem range_for_ptrcls_one_branch_per_storage ptrcls direction
    include_overlays env :
  let s := schema env in
  ∃ set_ops ptrclses owners env1,
    range_for_ptrcls_set_ops aliases_get ptrcls include_overlays env
    = Ok ((set_ops, ptrclses), env1)
    ∧ ptrclses = storage_owners s (get_shortname s (Link_obj ptrcls))
                   (range_for_ptrcls_sources s ptrcls)
    ∧ NoDup owners ∧ list_to_set owners = ptrclses
    ∧ storage_tables set_ops = map (link_table s) owners
    ∧ length (storage_tables set_ops) = size ptrclses
    ∧ match owners with
      | [] =>
          range_for_ptrcls aliases_get ptrcls direction include_overlays env
          = Raise IndexError
      | _ :: _ =>
          ∃ rvar env',
            range_for_ptrcls aliases_get ptrcls direction include_overlays
              env
            = Ok (rvar, env')
            ∧ range_storage_tables rvar = map (link_table s) owners
      end.
Proof.
  cbn zeta.
  destruct (range_for_ptrcls_set_ops_spec aliases_get ptrcls
              include_overlays env)
    as (set_ops & ptrclses & owners & env1 & Hrun & _ & Hseen & Hnd & Hset
          & Hst & _).
  destruct (range_for_ptrcls_set_ops_shapes ptrcls include_overlays env)
    as (set_ops' & ptrclses' & env1' & Hrun' & Hall & Hhead).
  rewrite Hrun in Hrun'. injection Hrun' as <- <- <-.
  exists set_ops, ptrclses, owners, env1.
  repeat (split; [done|]). split.
  { rewrite Hst, length_map, <-Hset. symmetry. by apply size_list_to_set. }
  unfold range_for_ptrcls. rewrite (M_bind_Ok _ _ _ _ _ Hrun).
  destruct set_ops as [|[o0 first] [|e rest]].
  - cbn in Hst. symmetry in Hst. apply map_eq_nil in Hst as ->. done.
  - destruct Hhead as (cols & p' & a & Hfirst). cbn in Hfirst. subst first.
    destruct owners as [|p owners]; [done|].
    eexists _, _. split; [reflexivity|].
    rewrite <-Hst. reflexivity.
  - destruct owners as [|p owners].
    { destruct Hhead as (cols & p' & a & Hfirst). cbn in Hfirst.
      subst first. done. }
    rewrite range_from_queryset_many. cbn zeta. eexists _, _.
    split; [reflexivity|]. cbn [range_storage_tables].
    rewrite chain_branches_left_deep_chain.
    + rewrite <-Hst. by rewrite storage_tables_branches.
    + apply Forall_cons in Hall as [Hfirst _].
      by eapply chain_branches_pointer_branch.
Qed.

(** Property X13.  Without overlays, the branches of a pointer range are
    all [union] branches over storage tables, as many as there are
    storage owners among the sources that have the link. *)
Theorem range_for_ptrcls_without_overlays ptrcls env :
  let s := schema env in
  ∃ set_ops ptrclses env',
    range_for_ptrcls_set_ops aliases_get ptrcls false env
    = Ok ((set_ops, ptrclses), env')
    ∧ ptrclses = storage_owners s (get_shortname s (Link_obj ptrcls))
                   (range_for_ptrcls_sources s ptrcls)
    ∧ Forall (λ b, b.1 = "union") set_ops
    ∧ length set_ops = size ptrclses
    ∧ length (storage_tables set_ops) = length set_ops.
Proof.
  cbn zeta.
  destruct (range_for_ptrcls_set_ops_branches aliases_get ptrcls false env)
    as (set_ops & ptrclses & env' & Hrun & _ & Hseen & _ & _ & Hno).
  destruct (Hno eq_refl) as [Hops Hlen].
  destruct (range_for_ptrcls_set_ops_spec aliases_get ptrcls false env)
    as (set_ops' & ptrclses' & owners & env'' & Hrun' & _ & _ & Hnd & Hset
          & Hst & _ & Hlen').
  rewrite Hrun in Hrun'. injection Hrun' as <- <- <-.
  exists set_ops, ptrclses, env'. repeat (split; [done|]).
  by rewrite Hst, length_map, Hlen'.
Qed.

(** Property X17.  [rvar_for_rel] on a query returns a subquery range
    over the query itself, with the column names and the [lateral] flag
    given; the hint of its alias is the name of the query when it has a
    non-empty one, and [q] otherwise. *)
Theorem rvar_for_rel_query (q : Query) lateral colnames env :
  ∃ hint,
    match name q with
    | Some n => if decide (n = "") then hint = "q" else hint = n
    | None => hint = "q"
    end
    ∧ hint ≠ ""
    ∧ rvar_for_rel aliases_get (SelectStmt q) lateral colnames env
      = Ok (RangeSubselect (SelectStmt q)
              (mkAlias (aliases_get (Some hint) (aliases env)).1 colnames)
              (Some lateral),
            after_alias aliases_get env (Some hint)).
Proof.
  unfold rvar_for_rel.
  destruct (name q) as [n|] eqn:Hn.
  - destruct (decide (n = "")) as [->|Hne].
    + by exists "q".
    + exists n. by rewrite bool_decide_eq_false_2.
  - by exists "q".
Qed.

End PointerRange.

(** Claim C4: the code does not do this.  With [union X], [replace Z]
    registered for the link [owner], [range_for_ptrcls] keeps the branch
    of the table and the branch of [X] that precede the entry
    [replace Z], and hands [replace] to the set combinator as the
    operation of the last node of the query. *)
Theorem range_for_ptrcls_replace_overlay :
  let cols := ["std::source"; "std::target"] in
  let x := ptrcls_overlay_branch cols
             (RangeVar (ex_cte "X") (mkAlias "X~1" [])) in
  let z := ptrcls_overlay_branch cols
             (RangeVar (ex_cte "Z") (mkAlias "Z~2" [])) in
  let base := ptrcls_storage_branch cols
                (link_table_rvar ex_schema (ex_link "owner@Root") "owner~0") in
  ∃ ptrclses env1 q a env',
    range_for_ptrcls_set_ops counter_aliases_get (ex_link "owner@Root") true
      ex_env_overlays
    = Ok (([("union", base); ("union", x); ("replace", z)], ptrclses), env1)
    ∧ range_for_ptrcls counter_aliases_get (ex_link "owner@Root") Outbound
        true ex_env_overlays
      = Ok (RangeSubselect q a None, env')
    ∧ q = set_operation (set_operation base "union" x) "replace" z
    ∧ unchain 2 q = Some (base, [("union", x); ("replace", z)]).
Proof.
  cbn zeta. eexists _, _, _, _, _.
  split; [vm_compute; reflexivity|].
  split; [vm_compute; reflexivity|].
  split; vm_compute; reflexivity.
Qed.


(** *** Column resolver, continued *)

Lemma result_mapM_returns {A B} (f : A → Result B) xs :
  (∃ ys, result_mapM f xs = Ok ys) ↔ Forall (λ x, ∃ y, f x = Ok y) xs.
Proof.
  induction xs as [|x xs IH]; cbn.
  - split; [constructor|by exists []].
  - split.
    + intros [ys Hrun]. destruct (f x) as [y|] eqn:Hx; [|done]. cbn in Hrun.
      destruct (result_mapM f xs) as [ys'|] eqn:Hxs; [|done].
      constructor; [by exists y|]. apply IH. by exists ys'.
    + intros [[y Hx] [ys Hxs]%IH]%Forall_cons.
      rewrite Hx. cbn. rewrite Hxs. by eexists.
Qed.

Lemma get_rvar_var_checked_returns_iff rvar var :
  ∀ optional nullable,
    (∃ fieldref,
       get_rvar_var_checked rvar var optional nullable = Ok fieldref)
    ↔ OutputVar_resolvable var = true.
Proof.
  induction var as [c|elements named IH] using OutputVar_name_ind;
    intros optional nullable.
  - cbn [OutputVar_resolvable get_rvar_var_checked].
    rewrite bool_decide_eq_true. unfold get_column.
    destruct c as [[|c0 cname] n o]; cbn [ColumnRef_name].
    + split; [by intros [? ?]|done].
    + split; [done|]. intros _.
      destruct (exists_last (l := c0 :: cname)) as (pre & colname & ->);
        [done|].
      rewrite last_snoc. by eexists.
  - rewrite get_rvar_var_checked_tuple. cbn [OutputVar_resolvable].
    transitivity (∃ elements',
                    result_mapM (get_rvar_var_element rvar) elements
                    = Ok elements').
    { split.
      - intros [fieldref Hrun].
        destruct (result_mapM _ elements) as [els|]; [by exists els|done].
      - intros [els ->]. by eexists. }
    rewrite result_mapM_returns.
    induction IH as [|el els IHel _ IHels]; cbn [forallb].
    + split; [done|constructor].
    + rewrite Forall_cons, andb_true_iff, IHels.
      apply and_iff_compat_r.
      unfold get_rvar_var_element, get_rvar_var.
      destruct (TupleElement_name el) as [|v].
      * split; [by intros [? ?]|done].
      * rewrite <-(IHel false None). split.
        -- intros [y Hy].
           destruct (get_rvar_var_checked rvar v false None) as [val|];
             [by exists val|done].
        -- intros [val ->]. by eexists.
Qed.

(** Property X19.  [get_rvar_var] returns exactly on the output
    variables whose column references all have a non-empty name and whose
    tuple elements are all named by output variables; on a string it
    fails its assertion. *)
Theorem get_rvar_var_returns_iff rvar (var : string + OutputVar) optional
    nullable :
  (∃ fieldref, get_rvar_var rvar var optional nullable = Ok fieldref)
  ↔ match var with
    | inr v => OutputVar_resolvable v = true
    | inl _ => False
    end.
Proof.
  destruct var as [str|v]; cbn [get_rvar_var].
  - split; [by intros [? ?]|done].
  - apply get_rvar_var_checked_returns_iff.
Qed.

(** Property X20.  Resolving a column reference against one range
    variable and the result against another, without explicit
    nullability, is resolving the reference against the second directly;
    resolving the result again against the first returns the result. *)
Theorem get_column_requalify rvar1 rvar2 colspec optional1 optional2
    nullable1 fieldref :
  get_column rvar1 (inr colspec) optional1 nullable1 = Ok fieldref →
  get_column rvar2 (inr fieldref) optional2 None
  = get_column rvar2 (inr colspec) optional2 nullable1
  ∧ get_column rvar1 (inr fieldref) optional2 None = Ok fieldref.
Proof.
  destruct colspec as [cname n o]. intros Hrun.
  unfold get_column in Hrun. cbn [ColumnRef_name] in Hrun.
  destruct (last cname) as [colname|] eqn:Hlast; [|done].
  cbn in Hrun. injection Hrun as <-.
  apply last_Some in Hlast as [pre ->]. rewrite get_column_ref.
  destruct rvar1 as [r1|].
  - change [aliasname (BaseRangeVar_alias r1); colname]
      with ([aliasname (BaseRangeVar_alias r1)] ++ [colname]).
    rewrite !get_column_ref. by destruct nullable1.
  - change [colname] with ([] ++ [colname]).
    rewrite !get_column_ref. by destruct nullable1.
Qed.


(** *** The further properties on the concrete compilation unit *)

Lemma range_for_material_objtype_last_replace_witness :
  ∃ a env',
    range_for_material_objtype counter_aliases_get (ex_type "A") "p" true
      ex_env_replaced
    = Ok (RangeVar (ex_cte "Z") (mkAlias a []), env')
    ∧ same_unit ex_env_replaced env'.
Proof.
  apply (range_for_material_objtype_last_replace counter_aliases_get
           (ex_type "A") "p" [("union", ex_cte "X")] (ex_cte "Z")
           ex_env_replaced).
  vm_compute. reflexivity.
Defined.

Lemma range_for_material_objtype_direct_witness :
  range_for_material_objtype counter_aliases_get (ex_type "A") "p" false
    ex_env_overlays
  = Ok (RangeVar
          (inl (Relation
                  (mkRelation (Some "edgedb_test") "A_data" (Some "p") None)))
          (mkAlias "A~0" []),
        mkEnvironment ex_schema (rel_overlays ex_env_overlays) 1).
Proof.
  exact (range_for_material_objtype_direct counter_aliases_get (ex_type "A")
           "p" false ex_env_overlays eq_refl).
Defined.

Lemma range_for_objtype_raises_witness :
  range_for_objtype counter_aliases_get 3 (ex_type "E") "p" true ex_env
  = Raise IndexError
  ∧ (IndexError = IndexError ∨ IndexError = RecursionError).
Proof.
  assert (range_for_objtype counter_aliases_get 3 (ex_type "E") "p" true
            ex_env = Raise IndexError) as Hrun by reflexivity.
  split; [exact Hrun|].
  exact (range_for_objtype_raises counter_aliases_get 3 (ex_type "E") "p"
           true ex_env IndexError Hrun).
Defined.

Lemma range_for_objtype_more_depth_witness :
  ∃ r,
    range_for_objtype counter_aliases_get 2 (ex_type "V") "p" true
      ex_env_overlays = Ok r
    ∧ range_for_objtype counter_aliases_get 7 (ex_type "V") "p" true
        ex_env_overlays = Ok r.
Proof.
  destruct (range_for_objtype counter_aliases_get 2 (ex_type "V") "p" true
              ex_env_overlays) as [r|e] eqn:Hrun.
  - exists r. split; [reflexivity|].
    apply (range_for_objtype_more_depth counter_aliases_get 2 7
             (ex_type "V") "p" true ex_env_overlays r); [lia|exact Hrun].
  - vm_compute in Hrun. discriminate Hrun.
Defined.

Lemma range_for_objtype_single_child_witness :
  range_for_objtype counter_aliases_get 2 (ex_type "U") "p" true
    ex_env_single
  = range_for_objtype counter_aliases_get 1 (ex_type "A") "p" true
      ex_env_single.
Proof.
  apply (range_for_objtype_single_child counter_aliases_get 1 (ex_type "U")
           (ex_type "A") "p" true ex_env_single).
  - reflexivity.
  - cbn. set_solver.
Defined.

Lemma range_for_ptrcls_single_storage_witness :
  range_for_ptrcls counter_aliases_get (ex_link "owner@Child1") Inbound
    false ex_env_overlays
  = Ok (link_table_rvar ex_schema (ex_link "owner@Root") "owner~0",
        mkEnvironment ex_schema (rel_overlays ex_env_overlays) 1).
Proof.
  apply (range_for_ptrcls_single_storage counter_aliases_get
           (ex_link "owner@Child1") Inbound false ex_env_overlays
           (ex_link "owner@Root")).
  - vm_compute. reflexivity.
  - reflexivity.
Defined.

Lemma replace_overlay_end_to_end_witness :
  ∃ cte env1 env2 a env3,
    cte_for_query counter_aliases_get new_SelectStmt ex_env_overlays
    = Ok (cte, env1)
    ∧ cte_query cte = SelectStmt new_SelectStmt
    ∧ add_rel_overlay (ex_type "A") "replace" (inr cte) env1 = Ok ((), env2)
    ∧ range_for_objtype counter_aliases_get 1 (ex_type "A") "p" true env2
      = Ok (RangeVar
              (inr (mkCommonTableExpr (cte_name cte)
                      (SelectStmt
                         (set_path_info new_SelectStmt (Some true)
                            (Some "p")))
                      (cte_alias cte)))
              (mkAlias a []),
            env3).
Proof.
  apply (replace_overlay_end_to_end counter_aliases_get 0 (ex_type "A") "p"
           new_SelectStmt ex_env_overlays); reflexivity.
Defined.

Lemma get_column_requalify_witness :
  get_column (Some ex_rvar)
    (inr (mkColumnRef ["first"] (Some false) (Some true))) false None
  = Ok (mkColumnRef ["A~1"; "first"] (Some false) (Some true))
  ∧ get_column None
      (inr (mkColumnRef ["A~1"; "first"] (Some false) (Some true))) false
      None
    = get_column None
        (inr (mkColumnRef ["first"] (Some false) (Some true))) false None
  ∧ get_column (Some ex_rvar)
      (inr (mkColumnRef ["A~1"; "first"] (Some false) (Some true))) false
      None
    = Ok (mkColumnRef ["A~1"; "first"] (Some false) (Some true)).
Proof.
  split; [reflexivity|].
  exact (get_column_requalify (Some ex_rvar) None
           (mkColumnRef ["first"] (Some false) (Some true)) false false None
           (mkColumnRef ["A~1"; "first"] (Some false) (Some true)) eq_refl).
Defined.
